(** * rope.refactor.functionutils: signature / call reconciliation

    A shallow embedding of [rope/refactor/functionutils.py]:
    [DefinitionInfo], [CallInfo], [ArgumentMapping] and the two header
    parsers [_FunctionDefParser] and [_FunctionCallParser], followed by the
    properties of the argument mapper and of the parsers.

    Python values are embedded as follows: [str] is [string], a list is a
    [list], [None]-able values are [option]s, the dictionary
    [ArgumentMapping.param_dict] is a [gmap string string], and a raised
    exception is the left summand of [result]. *)

From Stdlib Require Import Ascii String.
From stdpp Require Import base option list strings gmap sorting.

(** ** Exceptions *)

Inductive exn : Type :=
  | ValueError      (* str.rindex: substring not found *)
  | IndexError      (* list index out of range *)
  | AssertionError  (* a failed assert *)
  | SyntaxError     (* ast.parse rejected the text *)
  | AttributeError  (* attribute access on an object that lacks it *)
  | UnmatchedDelimiter. (* the Header Locator found no opening delimiter *)

Definition result (A : Type) : Type := (exn + A)%type.

Definition raise {A : Type} (e : exn) : result A := inl e.

#[global] Instance result_ret : MRet result := fun A x => inr x.
#[global] Instance result_bind : MBind result :=
  fun A B f m => match m with inl e => inl e | inr x => f x end.

Definition assert_ (b : bool) : result unit :=
  if b then mret tt else raise AssertionError.

Definition is_ok {A : Type} (r : result A) : bool :=
  match r with inr _ => true | inl _ => false end.

(** ** The parts of Python's [str] and [list] the module uses *)

Module Py.

(** [s[n:]] *)
Fixpoint str_drop (n : nat) (s : string) : string :=
  match n, s with
  | 0, _ => s
  | S n', String _ s' => str_drop n' s'
  | S _, EmptyString => EmptyString
  end.

(** [s[:n]] *)
Fixpoint str_take (n : nat) (s : string) : string :=
  match n, s with
  | S n', String c s' => String c (str_take n' s')
  | _, _ => EmptyString
  end.

(** [s[start:stop]] for non-negative bounds. *)
Definition slice (start stop : nat) (s : string) : string :=
  str_take (stop - start) (str_drop start s).

(** [s.startswith(p)] *)
Definition startswith (p s : string) : bool := String.prefix p s.

(** [c in s] for a one-character [c]. *)
Fixpoint contains (c : ascii) (s : string) : bool :=
  match s with
  | EmptyString => false
  | String d s' => if Ascii.eqb c d then true else contains c s'
  end.

(** The scan behind [s.rindex(c)]: [i] is the offset of the head of [s],
    [last] the highest offset at which [c] was seen so far. *)
Fixpoint rindex_from (c : ascii) (i : nat) (last : option nat) (s : string)
  : option nat :=
  match s with
  | EmptyString => last
  | String d s' =>
      rindex_from c (S i) (if Ascii.eqb c d then Some i else last) s'
  end.

(** [s.rindex(c)]: highest offset of [c], [ValueError] when absent. *)
Definition rindex (c : ascii) (s : string) : result nat :=
  match rindex_from c 0 None s with
  | Some i => mret i
  | None => raise ValueError
  end.

(** [s.rindex(c, 0, stop)] *)
Definition rindex_before (c : ascii) (stop : nat) (s : string) : result nat :=
  rindex c (str_take stop s).

Fixpoint lstrip_by (p : ascii -> bool) (s : string) : string :=
  match s with
  | String c s' => if p c then lstrip_by p s' else s
  | EmptyString => EmptyString
  end.

Definition rstrip_by (p : ascii -> bool) (s : string) : string :=
  String.rev (lstrip_by p (String.rev s)).

(** Whitespace for [str.strip()] within ASCII: tab to carriage return, the
    four separators 28 to 31, and the space. *)
Definition is_space (c : ascii) : bool :=
  Ascii.is_space c
  || ((28 <=? nat_of_ascii c) && (nat_of_ascii c <=? 31)).

(** [s.strip()] *)
Definition strip (s : string) : string :=
  rstrip_by is_space (lstrip_by is_space s).

(** [s.rstrip(":")] *)
Definition rstrip_colon (s : string) : string :=
  rstrip_by (Ascii.eqb ":"%char) s.

(** [sep.join(l)] *)
Definition join (sep : string) (l : list string) : string :=
  String.concat sep l.

(** [l[-k:]] for [k > 0]: the last [k] items, all of [l] when it is
    shorter. *)
Definition last_n {A : Type} (k : nat) (l : list A) : list A :=
  drop (length l - k) l.

(** [del l[-k:]] for [k > 0]. *)
Definition del_last_n {A : Type} (k : nat) (l : list A) : list A :=
  take (length l - k) l.

(** [zip(l, k)] *)
Definition zip {A B : Type} (l : list A) (k : list B) : list (A * B) :=
  List.combine l k.

(** Truthiness of an optional string: [None] and [""] are falsy. *)
Definition truthy (o : option string) : bool :=
  match o with
  | Some (String _ _) => true
  | _ => false
  end.

End Py.

(** ** Collaborators outside the module *)

(** What [ast.parse] hands back, cut down to the attributes the parsers
    read.  An expression node is kept as the source span recorded on it. *)
Module Ast.

Record node : Type := Node {
  lineno : nat;
  col_offset : nat;
  end_lineno : nat;
  end_col_offset : nat;
}.

(** [ast.arg]; [arg] is the parameter's name. *)
Record arg_ : Type := Arg { arg : string }.

(** [ast.keyword]; [kw_arg] is [None] for a [**mapping] argument. *)
Record keyword : Type := Keyword {
  kw_arg : option string;
  kw_value : node;
}.

Record arguments : Type := Arguments {
  posonlyargs : list arg_;
  args : list arg_;
  vararg : option arg_;
  kwonlyargs : list arg_;
  kw_defaults : list (option node);
  kwarg : option arg_;
  defaults : list node;
}.

Inductive expr : Type :=
  | Call (call_args : list node) (call_keywords : list keyword)
  | OtherExpr.

Inductive stmt : Type :=
  | FunctionDef (name : string) (fargs : arguments)
  | Expr (value : expr)
  | OtherStmt (value : option expr).

(** [ast.Module.body] *)
Definition module_ : Type := list stmt.

End Ast.

(** [rope.base.codeanalyze.SourceLinesAdapter], as far as
    [_get_source_range] uses it. *)
Module SourceLinesAdapter.
Record t : Type := mk {
  code : string;
  get_line_start : nat -> nat;
}.
End SourceLinesAdapter.

(** Python's parser and the line index are supplied from outside:
    [ast_parse] is [None] where [ast.parse] raises [SyntaxError]. *)
Class Collaborators : Type := {
  ast_parse : string -> option Ast.module_;
  source_lines : string -> SourceLinesAdapter.t;
}.

(** Modelled from the spec: the Header Locator ([rope.base.worder.Worder],
    whose source is not part of this module), section 4.1: the offset of the
    opening delimiter that matches a closing one, skipping nested brackets and
    string-literal content and failing when the start of the text is reached;
    the word that ends at an offset; the dotted primary that ends at an
    offset. *)
Module Worder.

Definition in_range (lo hi : nat) (c : ascii) : bool :=
  (lo <=? nat_of_ascii c) && (nat_of_ascii c <=? hi).

Definition is_id_char (c : ascii) : bool :=
  in_range 48 57 c || in_range 65 90 c || in_range 97 122 c
  || Ascii.eqb c "_"%char.

Definition is_opening (c : ascii) : bool :=
  Ascii.eqb c "("%char || Ascii.eqb c "["%char || Ascii.eqb c "{"%char.

Definition is_closing (c : ascii) : bool :=
  Ascii.eqb c ")"%char || Ascii.eqb c "]"%char || Ascii.eqb c "}"%char.

Definition is_quote (c : ascii) : bool :=
  Ascii.eqb c (ascii_of_nat 34) || Ascii.eqb c "'"%char.

(** Scan towards the start of the text.  [before] holds the characters in
    front of the closing delimiter, nearest first; [depth] counts the
    brackets opened on the way, [quote] is the delimiter of the string
    literal the scan is inside of. *)
Fixpoint scan_back (before : list ascii) (depth : nat) (quote : option ascii)
  : option nat :=
  match before with
  | [] => None
  | c :: rest =>
      match quote with
      | Some q => scan_back rest depth (if Ascii.eqb c q then None else quote)
      | None =>
          if is_quote c then scan_back rest depth (Some c)
          else if is_closing c then scan_back rest (S depth) None
          else if is_opening c then
            match depth with
            | 0 => Some (length rest)
            | S depth' => scan_back rest depth' None
            end
          else scan_back rest depth None
      end
  end.

(** Modelled from the spec: [Worder._find_parens_start], the offset of the
    opening delimiter matching the closing one at [offset]; [None] when the
    start of the text is reached first. *)
Definition _find_parens_start (code : string) (offset : nat) : option nat :=
  scan_back (reverse (list_ascii_of_string (Py.str_take offset code))) 0 None.

Fixpoint take_while (p : ascii -> bool) (l : list ascii) : list ascii :=
  match l with
  | c :: l' => if p c then c :: take_while p l' else []
  | [] => []
  end.

(** The longest run of characters satisfying [p] whose last character sits
    at [offset]; empty for an offset in front of the text. *)
Definition run_ending_at (p : ascii -> bool) (code : string) (offset : Z)
  : string :=
  match offset with
  | Zneg _ => ""
  | _ =>
      string_of_list_ascii
        (reverse
           (take_while p
              (reverse
                 (list_ascii_of_string
                    (Py.str_take (S (Z.to_nat offset)) code)))))
  end.

(** Modelled from the spec: [Worder.get_word_at], the word right in front
    of the opening delimiter when called with its offset minus one. *)
Definition get_word_at (code : string) (offset : Z) : string :=
  run_ending_at is_id_char code offset.

(** Modelled from the spec: [Worder.get_primary_at], the dotted primary
    right in front of the opening delimiter, such as [a.b.c]. *)
Definition get_primary_at (code : string) (offset : Z) : string :=
  run_ending_at (fun c => is_id_char c || Ascii.eqb c "."%char) code offset.

End Worder.

(** ** _BaseFunctionParser *)

Module BaseFunctionParser.

Record t : Type := mk {
  call : string;
  implicit_arg : bool;
  last_parens : nat;
  first_parens : nat;
}.

(** [__init__]; the word finder is [Worder(call)], so it is not stored. *)
Definition init (call : string) (implicit_arg is_lambda : bool) : result t :=
  last_parens ←
    (if is_lambda then Py.rindex ":"%char call else Py.rindex ")"%char call);
  first_parens ←
    match Worder._find_parens_start call last_parens with
    | Some i => mret i
    | None => raise UnmatchedDelimiter
    end;
  mret {| call := call; implicit_arg := implicit_arg;
          last_parens := last_parens; first_parens := first_parens |}.

Definition is_called_as_a_method (p : t) : bool :=
  implicit_arg p && Py.contains "."%char (Py.str_take (first_parens p) (call p)).

Definition get_function_name (p : t) : string :=
  if is_called_as_a_method p
  then Worder.get_word_at (call p) (Z.of_nat (first_parens p) - 1)
  else Worder.get_primary_at (call p) (Z.of_nat (first_parens p) - 1).

(** [get_instance]; the method returns [None] by falling off its end when
    the call is not written as a method call. *)
Definition get_instance (p : t) : result (option string) :=
  if is_called_as_a_method p
  then
    dot ← Py.rindex_before "."%char (first_parens p) (call p);
    mret (Some (Worder.get_primary_at (call p) (Z.of_nat dot - 1)))
  else mret None.

Definition _get_source_range (lines : SourceLinesAdapter.t) (tree : Ast.node)
  : string :=
  let start :=
    SourceLinesAdapter.get_line_start lines (Ast.lineno tree)
    + Ast.col_offset tree in
  let end_ :=
    SourceLinesAdapter.get_line_start lines (Ast.end_lineno tree)
    + Ast.end_col_offset tree in
  Py.slice start end_ (SourceLinesAdapter.code lines).

(** [_get_source_range(None)]: [None] has no [lineno]. *)
Definition _get_source_range_opt (lines : SourceLinesAdapter.t)
    (tree : option Ast.node) : result string :=
  match tree with
  | Some n => mret (_get_source_range lines n)
  | None => raise AttributeError
  end.

End BaseFunctionParser.

(** The tail shared by [DefinitionInfo._read] and [CallInfo.read]: a last
    item starting with two stars becomes [keywords_arg], then a last item
    starting with one star becomes [args_arg]. *)
Definition split_stars (args : list string)
  : list string * option string * option string :=
  let '(args, keywords_arg) :=
    match last args with
    | Some a =>
        if Py.startswith "**" a
        then (removelast args, Some (Py.str_drop 2 a))
        else (args, None)
    | None => (args, None)
    end in
  let '(args, args_arg) :=
    match last args with
    | Some a =>
        if Py.startswith "*" a
        then (removelast args, Some (Py.str_drop 1 a))
        else (args, None)
    | None => (args, None)
    end in
  (args, args_arg, keywords_arg).

(** ** _FunctionDefParser *)

(** What ends up as the first component of an [args_with_defaults] pair:
    a parameter name, or, out of the [kw_defaults] comprehension, which zips
    over [kwargs] itself, one of [kwargs]'s own (name, text) tuples. *)
Inductive pname : Type :=
  | Name (name : string)
  | Tuple (name text : string).

Module FunctionDefParser.

Record t : Type := mk {
  base : BaseFunctionParser.t;
  _lines : SourceLinesAdapter.t;
  ast_name : string;
  ast_args : Ast.arguments;
}.

Section with_collaborators.
Context `{Collaborators}.

(** [__init__]; [is_lambda] is accepted and not passed on. *)
Definition init (call : string) (implicit_arg is_lambda : bool) : result t :=
  b ← BaseFunctionParser.init call implicit_arg false;
  let _modified_call := "def " +:+ Py.rstrip_colon call +:+ ": pass" in
  let lines := source_lines _modified_call in
  match ast_parse _modified_call with
  | None => raise SyntaxError
  | Some [] => raise IndexError
  | Some (Ast.FunctionDef name fargs :: _) =>
      mret {| base := b; _lines := lines;
              ast_name := name; ast_args := fargs |}
  | Some (_ :: _) => raise AssertionError
  end.

End with_collaborators.

(** The comprehension
    [[(name, self._get_source_range(value)) for name, value in pairs]]. *)
Fixpoint source_ranges {K : Type} (lines : SourceLinesAdapter.t)
    (pairs : list (K * option Ast.node)) : result (list (K * string)) :=
  match pairs with
  | [] => mret []
  | (name, value) :: pairs' =>
      text ← BaseFunctionParser._get_source_range_opt lines value;
      rest ← source_ranges lines pairs';
      mret ((name, text) :: rest)
  end.

Definition get_parameters (p : t)
  : result (list string * list (pname * string)) :=
  let a := ast_args p in
  let args := Ast.arg <$> Ast.posonlyargs a in
  let args := args ++ (Ast.arg <$> Ast.args a) in
  let args :=
    match Ast.vararg a with
    | Some v => args ++ ["*" +:+ Ast.arg v]
    | None => args
    end in
  let defaults := Ast.defaults a in
  '(args, kwargs) ←
    (if 0 <? length defaults
     then
       kw ← source_ranges (_lines p)
              (Py.zip (Py.last_n (length defaults) args) (Some <$> defaults));
       mret (Py.del_last_n (length defaults) args, kw)
     else mret (args, []));
  let args :=
    match Ast.kwarg a with
    | Some k => args ++ ["**" +:+ Ast.arg k]
    | None => args
    end in
  let args :=
    match Ast.kwonlyargs a with
    | [] => args
    | kwonly => args ++ ["*"] ++ (Ast.arg <$> kwonly)
    end in
  let kw_defaults := Ast.kw_defaults a in
  if 0 <? length kw_defaults
  then
    kw ← source_ranges (_lines p)
           (Py.zip (Py.last_n (length kw_defaults) kwargs) kw_defaults);
    mret (Py.del_last_n (length kw_defaults) args,
          (prod_map Name id <$> kwargs)
          ++ ((fun '((name, text), text') => (Tuple name text, text')) <$> kw))
  else mret (args, prod_map Name id <$> kwargs).

End FunctionDefParser.

(** ** _FunctionCallParser *)

Module FunctionCallParser.

Record t : Type := mk {
  base : BaseFunctionParser.t;
  _lines : SourceLinesAdapter.t;
  ast_args : list Ast.node;
  ast_keywords : list Ast.keyword;
}.

Section with_collaborators.
Context `{Collaborators}.

(** [__init__]; [is_lambda] is accepted and not passed on. *)
Definition init (call : string) (implicit_arg is_lambda : bool) : result t :=
  b ← BaseFunctionParser.init call implicit_arg false;
  let lines := source_lines call in
  match ast_parse call with
  | None => raise SyntaxError
  | Some [] => raise IndexError
  | Some (Ast.Expr (Ast.Call cargs ckeywords) :: _)
  | Some (Ast.OtherStmt (Some (Ast.Call cargs ckeywords)) :: _) =>
      mret {| base := b; _lines := lines;
              ast_args := cargs; ast_keywords := ckeywords |}
  | Some (Ast.Expr Ast.OtherExpr :: _)
  | Some (Ast.OtherStmt (Some Ast.OtherExpr) :: _) => raise AssertionError
  | Some (_ :: _) => raise AttributeError
  end.

End with_collaborators.

(** The loop [for kw in self.ast.keywords] with its [assert kw.arg]. *)
Fixpoint keyword_values (lines : SourceLinesAdapter.t)
    (kws : list Ast.keyword) : result (list (string * string)) :=
  match kws with
  | [] => mret []
  | kw :: kws' =>
      let kw_value :=
        BaseFunctionParser._get_source_range lines (Ast.kw_value kw) in
      _ ← assert_ (Py.truthy (Ast.kw_arg kw));
      rest ← keyword_values lines kws';
      mret ((default "" (Ast.kw_arg kw), kw_value) :: rest)
  end.

Definition get_parameters (p : t)
  : result (list string * list (string * string)) :=
  let args :=
    BaseFunctionParser._get_source_range (_lines p) <$> ast_args p in
  kwargs ← keyword_values (_lines p) (ast_keywords p);
  args ←
    (if BaseFunctionParser.is_called_as_a_method (base p)
     then
       dot ← Py.rindex_before "."%char
                (BaseFunctionParser.first_parens (base p))
                (BaseFunctionParser.call (base p));
       let instance := Py.str_take dot (BaseFunctionParser.call (base p)) in
       mret (Py.strip instance :: args)
     else mret args);
  mret (args, kwargs).

End FunctionCallParser.

(** ** DefinitionInfo *)

Module DefinitionInfo.

(** [N] is the type of the first component of [args_with_defaults]'s
    pairs.  The argument mapper only ever sees parameter names, [string];
    [DefinitionInfo._read] can also put a tuple there (see
    [FunctionDefParser.get_parameters]). *)
Record t (N : Type) : Type := mk {
  function_name : string;
  is_method : bool;
  args_with_defaults : list (N * option string);
  args_arg : option string;
  keywords_arg : option string;
}.
#[global] Arguments mk {N}.
#[global] Arguments function_name {N}.
#[global] Arguments is_method {N}.
#[global] Arguments args_with_defaults {N}.
#[global] Arguments args_arg {N}.
#[global] Arguments keywords_arg {N}.

(** The parameter names, in order: [pair[0] for pair in args_with_defaults]. *)
Definition names {N : Type} (d : t N) : list N :=
  (args_with_defaults d).*1.

Definition arguments_to_string (d : t string) (from_index : nat) : string :=
  let params :=
    (fun '(arg, default) =>
       match default with
       | Some dflt => arg +:+ "=" +:+ dflt
       | None => arg
       end) <$> args_with_defaults d in
  let params :=
    match args_arg d with
    | Some a => params ++ ["*" +:+ a]
    | None => params
    end in
  let params :=
    if Py.truthy (keywords_arg d)
    then params ++ ["**" +:+ default "" (keywords_arg d)]
    else params in
  Py.join ", " (drop from_index params).

Definition to_string (d : t string) : string :=
  function_name d +:+ "(" +:+ arguments_to_string d 0 +:+ ")".

(** [_read(pyfunction, code)]; of [pyfunction] only [get_kind()] is used,
    so the kind is passed in its place. *)
Definition _read `{Collaborators} (kind : string) (code : string)
  : result (t pname) :=
  let is_method := bool_decide (kind = "method") in
  let is_lambda := bool_decide (kind = "lambda") in
  info ← FunctionDefParser.init code is_method is_lambda;
  '(args, keywords) ← FunctionDefParser.get_parameters info;
  let '(args, args_arg, keywords_arg) := split_stars args in
  let args_with_defaults :=
    ((fun name => (Name name, None)) <$> args)
    ++ (prod_map id Some <$> keywords) in
  mret {| function_name :=
            BaseFunctionParser.get_function_name (FunctionDefParser.base info);
          is_method := is_method;
          args_with_defaults := args_with_defaults;
          args_arg := args_arg;
          keywords_arg := keywords_arg |}.

End DefinitionInfo.

(** ** CallInfo *)

Module CallInfo.

Record t : Type := mk {
  function_name : string;
  args : list string;
  keywords : list (string * string);
  args_arg : option string;
  keywords_arg : option string;
  implicit_arg : bool;
  constructor : bool;
}.

Definition to_string (c : t) : result string :=
  function ←
    (if implicit_arg c
     then match args c with
          | a0 :: _ => mret (a0 +:+ "." +:+ function_name c)
          | [] => raise IndexError
          end
     else mret (function_name c));
  let start := if implicit_arg c || constructor c then 1 else 0 in
  let params := drop start (args c) in
  let params :=
    params ++ ((fun '(name, value) => name +:+ "=" +:+ value) <$> keywords c) in
  let params :=
    match args_arg c with
    | Some a => params ++ ["*" +:+ a]
    | None => params
    end in
  let params :=
    if Py.truthy (keywords_arg c)
    then params ++ ["**" +:+ default "" (keywords_arg c)]
    else params in
  mret (function +:+ "(" +:+ Py.join ", " params +:+ ")").

(** [read(primary, pyname, definition_info, code)]; [primary] and [pyname]
    only feed [_is_method_call], [_is_class] and [_is_classmethod], whose
    answers are passed in their place. *)
Definition read `{Collaborators} (is_method_call is_constructor is_classmethod : bool)
    (definition_info : DefinitionInfo.t string) (code : string) : result t :=
  info ← FunctionCallParser.init code (is_method_call || is_classmethod) false;
  '(args, keywords) ← FunctionCallParser.get_parameters info;
  let '(args, args_arg, keywords_arg) := split_stars args in
  args ←
    (if is_constructor
     then match DefinitionInfo.args_with_defaults definition_info with
          | (name, _) :: _ => mret (name :: args)
          | [] => raise IndexError
          end
     else mret args);
  mret {| function_name :=
            BaseFunctionParser.get_function_name (FunctionCallParser.base info);
          args := args;
          keywords := keywords;
          args_arg := args_arg;
          keywords_arg := keywords_arg;
          implicit_arg := is_method_call || is_classmethod;
          constructor := is_constructor |}.

End CallInfo.

(** ** ArgumentMapping *)

Module ArgumentMapping.

Record t : Type := mk {
  call_info : CallInfo.t;
  param_dict : gmap string string;
  keyword_args : list (string * string);
  args_arg : list string;
}.

(** First loop of [__init__]:
    [for index, value in enumerate(call_info.args)], threading
    [param_dict] and [args_arg]. *)
Fixpoint bind_args (params : list (string * option string)) (index : nat)
    (values : list string) (pd : gmap string string) (overflow : list string)
  : gmap string string * list string :=
  match values with
  | [] => (pd, overflow)
  | value :: values' =>
      match params !! index with
      | Some (name, _) =>          (* index < len(args_with_defaults) *)
          bind_args params (S index) values' (<[name := value]> pd) overflow
      | None =>
          bind_args params (S index) values' pd (overflow ++ [value])
      end
  end.

(** The inner [for pair in args_with_defaults: if pair[0] == name] of the
    second loop: does the search leave through [break]? *)
Fixpoint declares (params : list (string * option string)) (name : string)
  : bool :=
  match params with
  | [] => false
  | entry :: params' =>
      if bool_decide (entry.1 = name) then true else declares params' name
  end.

(** Second loop of [__init__]: [for name, value in call_info.keywords]. *)
Fixpoint bind_keywords (params : list (string * option string))
    (kws : list (string * string)) (pd : gmap string string)
    (extra : list (string * string))
  : gmap string string * list (string * string) :=
  match kws with
  | [] => (pd, extra)
  | (name, value) :: kws' =>
      if declares params name
      then bind_keywords params kws' (<[name := value]> pd) extra
      else bind_keywords params kws' pd (extra ++ [(name, value)])
  end.

(** [ArgumentMapping(definition_info, call_info)] *)
Definition init (definition_info : DefinitionInfo.t string)
    (call_info : CallInfo.t) : t :=
  let params := DefinitionInfo.args_with_defaults definition_info in
  let '(pd, overflow) := bind_args params 0 (CallInfo.args call_info) ∅ [] in
  let '(pd, extra) := bind_keywords params (CallInfo.keywords call_info) pd [] in
  {| call_info := call_info;
     param_dict := pd;
     keyword_args := extra;
     args_arg := overflow |}.

(** The inner loop of [to_call_info],
    [for i in range(index, len(args_with_defaults))], run over the
    parameters from [index] on. *)
Fixpoint keyword_pass (pd : gmap string string)
    (params : list (string * option string)) : list (string * string) :=
  match params with
  | [] => []
  | (name, _) :: params' =>
      match pd !! name with
      | Some value => (name, value) :: keyword_pass pd params'
      | None => keyword_pass pd params'
      end
  end.

(** The outer loop of [to_call_info]: the positional arguments and the
    keywords it has collected when it ends or leaves through [break]. *)
Fixpoint walk (pd : gmap string string)
    (params : list (string * option string))
  : list string * list (string * string) :=
  match params with
  | [] => ([], [])
  | (name, _) :: params' =>
      match pd !! name with
      | Some value =>
          let '(args, keywords) := walk pd params' in (value :: args, keywords)
      | None => ([], keyword_pass pd params)
      end
  end.

Definition to_call_info (m : t) (definition_info : DefinitionInfo.t string)
  : CallInfo.t :=
  let '(args, keywords) :=
    walk (param_dict m) (DefinitionInfo.args_with_defaults definition_info) in
  {| CallInfo.function_name := CallInfo.function_name (call_info m);
     CallInfo.args := args ++ args_arg m;
     CallInfo.keywords := keywords ++ keyword_args m;
     CallInfo.args_arg := CallInfo.args_arg (call_info m);
     CallInfo.keywords_arg := CallInfo.keywords_arg (call_info m);
     CallInfo.implicit_arg := CallInfo.implicit_arg (call_info m);
     CallInfo.constructor := CallInfo.constructor (call_info m) |}.

End ArgumentMapping.

(** ** Vocabulary of the properties *)

Abbreviation params_t := (list (string * option string)).

(** [param_dict[p.1] = p.2] for every pair of [l], left to right: what a run
    of dictionary assignments leaves behind. *)
Definition insert_all (l : list (string * string)) (pd : gmap string string)
  : gmap string string :=
  foldl (fun m p => <[p.1 := p.2]> m) pd l.

(** A parameter has a binding, the text bound to it, and the keyword
    argument that passes that text by name. *)
Definition bound (pd : gmap string string) (p : string * option string) : Prop :=
  is_Some (pd !! p.1).

Definition value_of (pd : gmap string string) (p : string * option string)
  : option string := pd !! p.1.

Definition keyword_of (pd : gmap string string) (p : string * option string)
  : option (string * string) := (λ v, (p.1, v)) <$> pd !! p.1.

(** Index of the first parameter called [name]. *)
Definition position (names : list string) (name : string) : option nat :=
  fst <$> list_find (λ n, n = name) names.

(** The parameters a call's arguments go to, read left to right: the
    positional arguments by index, then the keywords that name a parameter. *)
Definition bound_positions (D : DefinitionInfo.t string) (C : CallInfo.t)
  : list nat :=
  let names := DefinitionInfo.names D in
  seq 0 (length (CallInfo.args C) `min` length names)
  ++ omap (λ kw, position names kw.1) (CallInfo.keywords C).

(** The call follows the definition's parameter order. *)
Definition in_definition_order (D : DefinitionInfo.t string) (C : CallInfo.t)
  : Prop :=
  StronglySorted lt (bound_positions D C).

(** The parameter right after the call's positional arguments is not passed
    by keyword. *)
Definition next_not_keyword (D : DefinitionInfo.t string) (C : CallInfo.t)
  : Prop :=
  ∀ name, DefinitionInfo.names D !! length (CallInfo.args C) = Some name →
          name ∉ (CallInfo.keywords C).*1.

(** The definition with the parameter at position [k] renamed to [new], its
    default kept. *)
Definition rename_parameter (D : DefinitionInfo.t string) (k : nat)
    (new : string) : DefinitionInfo.t string :=
  {| DefinitionInfo.function_name := DefinitionInfo.function_name D;
     DefinitionInfo.is_method := DefinitionInfo.is_method D;
     DefinitionInfo.args_with_defaults :=
       alter (λ p, (new, p.2)) k (DefinitionInfo.args_with_defaults D);
     DefinitionInfo.args_arg := DefinitionInfo.args_arg D;
     DefinitionInfo.keywords_arg := DefinitionInfo.keywords_arg D |}.

(** A mapping with one binding taken out. *)
Definition without (old : string) (m : ArgumentMapping.t) : ArgumentMapping.t :=
  {| ArgumentMapping.call_info := ArgumentMapping.call_info m;
     ArgumentMapping.param_dict := delete old (ArgumentMapping.param_dict m);
     ArgumentMapping.keyword_args := ArgumentMapping.keyword_args m;
     ArgumentMapping.args_arg := ArgumentMapping.args_arg m |}.

(** A call with its [constructor] flag set to [b]. *)
Definition with_constructor (b : bool) (c : CallInfo.t) : CallInfo.t :=
  {| CallInfo.function_name := CallInfo.function_name c;
     CallInfo.args := CallInfo.args c;
     CallInfo.keywords := CallInfo.keywords c;
     CallInfo.args_arg := CallInfo.args_arg c;
     CallInfo.keywords_arg := CallInfo.keywords_arg c;
     CallInfo.implicit_arg := CallInfo.implicit_arg c;
     CallInfo.constructor := b |}.

(** The names of a header's positional-only and ordinary parameters. *)
Definition positional_names (a : Ast.arguments) : list string :=
  (Ast.arg <$> Ast.posonlyargs a) ++ (Ast.arg <$> Ast.args a).

(** Those names followed by the starred variadic names the header has, as
    [get_parameters] assembles them. *)
Definition collected (a : Ast.arguments) : list string :=
  positional_names a
  ++ match Ast.vararg a with Some v => ["*" +:+ Ast.arg v] | None => [] end
  ++ match Ast.kwarg a with Some k => ["**" +:+ Ast.arg k] | None => [] end.

(** A parameter without a binding. *)
Definition unbound (pd : gmap string string) (p : string * option string)
  : Prop := pd !! p.1 = None.

(** The starred items [split_stars] takes off the end of a list, put back. *)
Definition stars_back (args_arg keywords_arg : option string) : list string :=
  match args_arg with Some a => ["*" +:+ a] | None => [] end
  ++ match keywords_arg with Some k => ["**" +:+ k] | None => [] end.

(** A text that does not begin with a star, as every identifier. *)
Definition no_star (s : string) : Prop := Py.startswith "*" s = false.

(** The list item [get_parameters] makes of a variadic parameter. *)
Definition starred (stars : string) (a : option Ast.arg_) : list string :=
  match a with Some x => [stars +:+ Ast.arg x] | None => [] end.

(** A keyword of a call has a name. *)
Definition named (kw : Ast.keyword) : bool := Py.truthy (Ast.kw_arg kw).

(** The pair [get_parameters] makes of a named keyword. *)
Definition keyword_pair (lines : SourceLinesAdapter.t) (kw : Ast.keyword)
  : string * string :=
  (default "" (Ast.kw_arg kw),
   BaseFunctionParser._get_source_range lines (Ast.kw_value kw)).

(** Every character of [s] satisfies [p]. *)
Definition all_chars (p : ascii → bool) (s : string) : bool :=
  forallb p (list_ascii_of_string s).

(** The text begins with a character that is not whitespace. *)
Definition starts_solid (s : string) : bool :=
  match s with
  | String c _ => negb (Py.is_space c)
  | EmptyString => false
  end.

(** A text with no whitespace around it: it is not empty and neither its
    first nor its last character is whitespace. *)
Definition trimmed (s : string) : bool :=
  starts_solid s && starts_solid (String.rev s).

(** A character that is no bracket and no quote. *)
Definition plain_char (c : ascii) : bool :=
  negb (Worder.is_quote c || Worder.is_closing c || Worder.is_opening c).

(** ** Sample signatures, calls and parse trees *)

Module Sample.

Definition plain (name : string) (params : list string)
    (star : option string) : DefinitionInfo.t string :=
  {| DefinitionInfo.function_name := name;
     DefinitionInfo.is_method := false;
     DefinitionInfo.args_with_defaults := (λ n, (n, None)) <$> params;
     DefinitionInfo.args_arg := star;
     DefinitionInfo.keywords_arg := None |}.

Definition call (name : string) (args : list string)
    (keywords : list (string * string)) : CallInfo.t :=
  {| CallInfo.function_name := name;
     CallInfo.args := args;
     CallInfo.keywords := keywords;
     CallInfo.args_arg := None;
     CallInfo.keywords_arg := None;
     CallInfo.implicit_arg := false;
     CallInfo.constructor := false |}.

(** [def f(a, b)], [def f(a, c)], [def f(a, b, c)] *)
Definition f_a_b := plain "f" ["a"; "b"] None.
Definition f_a_c := plain "f" ["a"; "c"] None.
Definition f_a_b_c := plain "f" ["a"; "b"; "c"] None.
(** [def f(a, b, *rest)], [def f(a, b, c, *rest)] *)
Definition f_a_b_rest := plain "f" ["a"; "b"] (Some "rest").
Definition f_a_b_c_rest := plain "f" ["a"; "b"; "c"] (Some "rest").
(** [def __init__(self, x)] *)
Definition init_self_x := plain "__init__" ["self"; "x"] None.

(** A line index for one-line fragments. *)
Definition one_line (s : string) : SourceLinesAdapter.t :=
  {| SourceLinesAdapter.code := s;
     SourceLinesAdapter.get_line_start := fun _ => 0 |}.

(** A node on line 1 spanning columns [a] to [b]. *)
Definition span (a b : nat) : Ast.node := Ast.Node 1 a 1 b.

(** The trees CPython's [ast.parse] builds for the fragments below. *)
Definition tree_obj_method_1_2 : Ast.module_ :=
  [Ast.Expr (Ast.Call [span 11 12; span 14 15] [])].
(** [a.b .method(1, 2)] *)
Definition tree_a_b_method_1_2 : Ast.module_ :=
  [Ast.Expr (Ast.Call [span 12 13; span 15 16] [])].
Definition tree_f_x_spread_d : Ast.module_ :=
  [Ast.Expr (Ast.Call [span 2 3] [Ast.Keyword None (span 7 8)])].
Definition tree_f_x_star_r : Ast.module_ :=
  [Ast.Expr (Ast.Call [span 2 3; span 5 7] [])].
Definition tree_C_1 : Ast.module_ :=
  [Ast.Expr (Ast.Call [span 2 3] [])].
Definition tree_def_f_a_b1_rest : Ast.module_ :=
  [Ast.FunctionDef "f"
     (Ast.Arguments [] [Ast.Arg "a"; Ast.Arg "b"] (Some (Ast.Arg "rest"))
        [] [] None [span 11 12])].
Definition tree_def_f_a_b1 : Ast.module_ :=
  [Ast.FunctionDef "f"
     (Ast.Arguments [] [Ast.Arg "a"; Ast.Arg "b"] None [] [] None
        [span 11 12])].
Definition tree_def_f_a_kw : Ast.module_ :=
  [Ast.FunctionDef "f"
     (Ast.Arguments [] [Ast.Arg "a"] None [] [] (Some (Ast.Arg "kw")) [])].
Definition tree_def_f_a_k_kw : Ast.module_ :=
  [Ast.FunctionDef "f"
     (Ast.Arguments [] [Ast.Arg "a"] None [Ast.Arg "k"] [None]
        (Some (Ast.Arg "kw")) [])].

Definition parse (s : string) : option Ast.module_ :=
  if bool_decide (s = "obj.method(1, 2)") then Some tree_obj_method_1_2
  else if bool_decide (s = "f(x, **d)") then Some tree_f_x_spread_d
  else if bool_decide (s = "f(x, *r)") then Some tree_f_x_star_r
  else if bool_decide (s = "C(1)") then Some tree_C_1
  else if bool_decide (s = "def f(a, b=1, *rest): pass")
  then Some tree_def_f_a_b1_rest
  else if bool_decide (s = "def f(a, b=1): pass") then Some tree_def_f_a_b1
  else if bool_decide (s = "def f(a, **kw): pass") then Some tree_def_f_a_kw
  else if bool_decide (s = "def f(a, *, k, **kw): pass")
  then Some tree_def_f_a_k_kw
  else None.

Definition collaborators : Collaborators :=
  {| ast_parse := parse; source_lines := one_line |}.

End Sample.

(** Collaborators for one fragment: the parser answers [tree] whatever the
    text, lines are indexed as for a one-line text. *)
Definition parsing_as (tree : Ast.module_) : Collaborators :=
  {| ast_parse := fun _ => Some tree; source_lines := Sample.one_line |}.

(** * Properties *)

Import ArgumentMapping.

(** ** Building a mapping *)

Lemma declares_spec params name :
  declares params name = true ↔ name ∈ params.*1.
Proof.
  induction params as [|[n d] params IH]; simpl.
  - split; [done | intros ?%elem_of_nil; done].
  - case_bool_decide as Hn; simpl in Hn.
    + subst. split; [intros _; left | done].
    + rewrite IH. split; [by right | intros [?|?]%elem_of_cons; [congruence | done]].
Qed.

Lemma bind_args_spec params values : ∀ index pd overflow,
  bind_args params index values pd overflow
  = (insert_all (zip (drop index params.*1) values) pd,
     overflow ++ drop (length params - index) values).
Proof.
  induction values as [|v values IH]; intros index pd overflow; simpl.
  - by rewrite zip_with_nil_r, drop_nil, app_nil_r.
  - destruct (params !! index) as [[name dflt]|] eqn:Hi.
    + rewrite IH.
      assert (index < length params) as Hlt by (by eapply lookup_lt_Some).
      rewrite (drop_S params.*1 name index) by (by rewrite list_lookup_fmap, Hi).
      replace (length params - index) with (S (length params - S index)) by lia.
      done.
    + rewrite IH.
      apply lookup_ge_None in Hi.
      rewrite !(drop_ge params.*1) by (rewrite length_fmap; lia).
      replace (length params - index) with 0 by lia.
      replace (length params - S index) with 0 by lia.
      simpl. by rewrite <-app_assoc.
Qed.

Lemma bind_keywords_spec params kws : ∀ pd extra,
  bind_keywords params kws pd extra
  = (insert_all (filter (λ kw, kw.1 ∈ params.*1) kws) pd,
     extra ++ filter (λ kw, kw.1 ∉ params.*1) kws).
Proof.
  induction kws as [|[name value] kws IH]; intros pd extra; simpl.
  - by rewrite app_nil_r.
  - destruct (declares params name) eqn:Hd.
    + apply declares_spec in Hd.
      rewrite IH, filter_cons_True, filter_cons_False by (simpl; auto).
      done.
    + assert (name ∉ params.*1) as Hn.
      { intros ?%declares_spec. congruence. }
      rewrite IH, filter_cons_False, filter_cons_True by (simpl; auto).
      simpl. by rewrite <-app_assoc.
Qed.

Lemma omap_cons {A B} (f : A → option B) (x : A) (l : list A) :
  omap f (x :: l) = match f x with Some y => y :: omap f l | None => omap f l end.
Proof. done. Qed.

Lemma keyword_pass_omap pd (params : params_t) :
  keyword_pass pd params = omap (keyword_of pd) params.
Proof.
  induction params as [|[name dflt] params IH]; simpl; [done|].
  change (keyword_of pd (name, dflt)) with ((λ v, (name, v)) <$> pd !! name).
  destruct (pd !! name); simpl; by rewrite IH.
Qed.

Lemma walk_shape pd (params : params_t) :
  ∃ k, k ≤ length params
       ∧ Forall (bound pd) (take k params)
       ∧ (k = length params ∨ ∃ p, params !! k = Some p ∧ pd !! p.1 = None)
       ∧ walk pd params
         = (omap (value_of pd) (take k params),
            omap (keyword_of pd) (drop k params)).
Proof.
  induction params as [|[name dflt] params IH].
  - exists 0. simpl. split_and!; auto.
  - simpl. destruct (pd !! name) as [value|] eqn:Hname.
    + destruct IH as (k & Hk & Hb & Hgap & ->).
      exists (S k). simpl. split_and!.
      * lia.
      * constructor; [by eexists | done].
      * destruct Hgap as [->|Hgap]; [by left | by right].
      * change (value_of pd (name, dflt)) with (pd !! name). by rewrite Hname.
    + exists 0. simpl. split_and!.
      * lia.
      * constructor.
      * right. by exists (name, dflt).
      * rewrite keyword_pass_omap.
        change (keyword_of pd (name, dflt)) with ((λ v, (name, v)) <$> pd !! name).
        by rewrite Hname.
Qed.

Lemma zip_bound_values pd (l : params_t) :
  Forall (bound pd) l →
  zip l.*1 (omap (value_of pd) l) = omap (keyword_of pd) l
  ∧ length (omap (value_of pd) l) = length l.
Proof.
  induction 1 as [|[name dflt] l [v Hv] _ [IH1 IH2]]; [done|].
  simpl in Hv. rewrite !omap_cons.
  change (keyword_of pd (name, dflt)) with ((λ v, (name, v)) <$> pd !! name).
  change (value_of pd (name, dflt)) with (pd !! name).
  rewrite Hv, fmap_cons. simpl. by rewrite IH1, IH2.
Qed.

Lemma keyword_of_sound pd (l : params_t) :
  Forall (λ kw, pd !! kw.1 = Some kw.2 ∧ kw.1 ∈ l.*1) (omap (keyword_of pd) l).
Proof.
  induction l as [|[name dflt] l IH]; simpl; [constructor|].
  change (keyword_of pd (name, dflt)) with ((λ v, (name, v)) <$> pd !! name).
  assert (Forall (λ kw : string * string,
            pd !! kw.1 = Some kw.2 ∧ kw.1 ∈ name :: l.*1)
            (omap (keyword_of pd) l)) as IH'.
  { eapply Forall_impl; [exact IH|]. intros kw [? ?]. split; [done | by right]. }
  destruct (pd !! name) as [v|] eqn:Hv; simpl; [|done].
  constructor; [|done]. simpl. split; [done | left].
Qed.

Lemma insert_all_app l1 l2 pd :
  insert_all (l1 ++ l2) pd = insert_all l2 (insert_all l1 pd).
Proof. apply foldl_app. Qed.

Lemma insert_all_subseteq l : ∀ m pd,
  m ⊆ pd → Forall (λ kw, pd !! kw.1 = Some kw.2) l → insert_all l m ⊆ pd.
Proof.
  induction l as [|[k v] l IH]; intros m pd Hm Hl; simpl; [done|].
  inversion_clear Hl as [|? ? Hkv Hl']. apply IH; [|done].
  by apply insert_subseteq_l.
Qed.

Lemma insert_all_dom l : ∀ m,
  dom (insert_all l m) = list_to_set l.*1 ∪ dom m.
Proof.
  induction l as [|[k v] l IH]; intros m; simpl.
  - by rewrite (left_id_L ∅ (∪)).
  - rewrite IH, dom_insert_L, (assoc_L (∪)).
    by rewrite (comm_L (∪) (list_to_set l.*1) {[k]}).
Qed.

Lemma rebuild_param_dict pd (params : params_t) :
  dom pd ⊆ list_to_set params.*1 →
  insert_all (omap (keyword_of pd) params) ∅ = pd.
Proof.
  intros Hdom. apply subseteq_dom_eq.
  - apply insert_all_subseteq; [apply map_empty_subseteq|].
    eapply Forall_impl; [apply keyword_of_sound|]. by intros kw [? _].
  - intros x Hx. rewrite insert_all_dom. apply elem_of_union_l.
    apply elem_of_list_to_set.
    assert (x ∈ params.*1) as Hin.
    { apply Hdom in Hx. by apply elem_of_list_to_set in Hx. }
    apply elem_of_dom in Hx as [v Hv].
    apply list_elem_of_fmap in Hin as ([name dflt] & -> & Hin).
    apply list_elem_of_fmap. exists (name, v). split; [done|].
    apply list_elem_of_omap. exists (name, dflt). split; [done|].
    unfold keyword_of. simpl in *. by rewrite Hv.
Qed.

Lemma init_spec (D : DefinitionInfo.t string) (C : CallInfo.t) :
  let names := (DefinitionInfo.args_with_defaults D).*1 in
  param_dict (init D C)
  = insert_all (filter (λ kw, kw.1 ∈ names) (CallInfo.keywords C))
      (insert_all (zip names (CallInfo.args C)) ∅)
  ∧ args_arg (init D C) = drop (length names) (CallInfo.args C)
  ∧ keyword_args (init D C) = filter (λ kw, kw.1 ∉ names) (CallInfo.keywords C)
  ∧ call_info (init D C) = C.
Proof.
  unfold init. rewrite bind_args_spec, bind_keywords_spec. simpl.
  by rewrite Nat.sub_0_r, length_fmap.
Qed.

Lemma init_dom D C :
  dom (param_dict (init D C))
  ⊆ list_to_set (DefinitionInfo.args_with_defaults D).*1.
Proof.
  destruct (init_spec D C) as (-> & _). rewrite !insert_all_dom.
  intros x. rewrite !elem_of_union, !elem_of_list_to_set, elem_of_dom.
  intros [Hx|[Hx|Hx]].
  - apply list_elem_of_fmap in Hx as (kw & -> & Hkw).
    by apply list_elem_of_filter in Hkw as [? _].
  - apply list_elem_of_fmap in Hx as ([n v] & -> & Hnv).
    by apply elem_of_zip_l in Hnv.
  - rewrite lookup_empty in Hx. by destruct Hx.
Qed.

Lemma init_overflow_bound D C :
  length (DefinitionInfo.args_with_defaults D) ≤ length (CallInfo.args C) →
  Forall (bound (param_dict (init D C))) (DefinitionInfo.args_with_defaults D).
Proof.
  intros Hlen. destruct (init_spec D C) as (Hpd & _).
  apply Forall_forall. intros [name dflt] Hin. unfold bound. simpl.
  apply elem_of_dom. rewrite Hpd, !insert_all_dom.
  apply elem_of_union_r, elem_of_union_l, elem_of_list_to_set.
  rewrite fst_zip by (by rewrite length_fmap).
  apply list_elem_of_fmap. by exists (name, dflt).
Qed.

Lemma to_call_info_fields m D :
  CallInfo.args (to_call_info m D)
  = (walk (param_dict m) (DefinitionInfo.args_with_defaults D)).1 ++ args_arg m
  ∧ CallInfo.keywords (to_call_info m D)
    = (walk (param_dict m) (DefinitionInfo.args_with_defaults D)).2
      ++ keyword_args m
  ∧ CallInfo.function_name (to_call_info m D)
    = CallInfo.function_name (call_info m)
  ∧ CallInfo.args_arg (to_call_info m D) = CallInfo.args_arg (call_info m)
  ∧ CallInfo.keywords_arg (to_call_info m D)
    = CallInfo.keywords_arg (call_info m)
  ∧ CallInfo.implicit_arg (to_call_info m D)
    = CallInfo.implicit_arg (call_info m)
  ∧ CallInfo.constructor (to_call_info m D)
    = CallInfo.constructor (call_info m).
Proof. unfold to_call_info. by destruct (walk _ _). Qed.

Lemma filter_all {A} (P : A → Prop) `{!∀ x, Decision (P x)} (l : list A) :
  Forall P l → filter P l = l.
Proof.
  induction 1 as [|x l Hx _ IH]; [done|]. by rewrite filter_cons_True, IH.
Qed.

Lemma filter_none {A} (P : A → Prop) `{!∀ x, Decision (P x)} (l : list A) :
  Forall (λ x, ¬ P x) l → filter P l = [].
Proof.
  induction 1 as [|x l Hx _ IH]; [done|]. by rewrite filter_cons_False.
Qed.

Lemma rebuild_after_render D C :
  let m := init D C in
  let m' := init D (to_call_info m D) in
  param_dict m' = param_dict m
  ∧ args_arg m' = args_arg m
  ∧ keyword_args m' = keyword_args m.
Proof.
  intros m m'.
  destruct (init_spec D (to_call_info m D)) as (Hpd' & Hov' & Hkw' & _).
  destruct (init_spec D C) as (Hpd & Hov & Hkw & _).
  destruct (to_call_info_fields m D) as (Ha & Hk & _).
  fold m in Hpd, Hov, Hkw, Ha, Hk. fold m' in Hpd', Hov', Hkw'.
  pose proof (init_dom D C) as Hdom. fold m in Hdom.
  set (params := DefinitionInfo.args_with_defaults D) in *.
  destruct (walk_shape (param_dict m) params) as (k & Hle & Hb & Hgap & Hw).
  rewrite Hw in Ha, Hk. simpl in Ha, Hk.
  destruct (zip_bound_values _ _ Hb) as [Hzip Hlen].
  rewrite length_take_le in Hlen by done.
  set (pos := omap (value_of (param_dict m)) (take k params)) in *.
  set (kws := omap (keyword_of (param_dict m)) (drop k params)) in *.
  (* a gap leaves no positional overflow *)
  assert (k = length params ∨ args_arg m = []) as Hov_nil.
  { destruct Hgap as [?|([name dflt] & Hp & Hnone)]; [by left | right].
    rewrite Hov. apply drop_ge. rewrite length_fmap.
    destruct (decide (length (CallInfo.args C) ≤ length params)); [done|].
    assert (Forall (bound (param_dict m)) params) as Hall
      by (apply init_overflow_bound; fold params; lia).
    rewrite Forall_forall in Hall.
    destruct (Hall (name, dflt)) as [v Hv];
      [by eapply list_elem_of_lookup_2 | simpl in *; congruence]. }
  assert (zip params.*1 (CallInfo.args (to_call_info m D))
          = omap (keyword_of (param_dict m)) (take k params)) as Hpos.
  { rewrite Ha, <-Hzip, zip_with_app_r, Hlen, fmap_take.
    destruct Hov_nil as [->| ->].
    - by rewrite drop_ge, app_nil_r by (by rewrite length_fmap).
    - by rewrite zip_with_nil_r, app_nil_r. }
  assert (Forall (λ kw : string * string, kw.1 ∈ params.*1) kws) as Hdecl.
  { eapply Forall_impl; [apply keyword_of_sound|]. intros kw [_ Hin].
    rewrite fmap_drop in Hin. by eapply subseteq_drop. }
  assert (Forall (λ kw : string * string, ¬ (kw.1 ∉ params.*1)) kws) as Hdecl'.
  { eapply Forall_impl; [exact Hdecl|]. naive_solver. }
  split_and!.
  - rewrite Hpd', Hpos, Hk, filter_app, (filter_all _ kws) by done.
    rewrite Hkw, filter_none, app_nil_r.
    + unfold kws. rewrite <-insert_all_app, <-omap_app, take_drop.
      by apply rebuild_param_dict.
    + apply Forall_forall. intros kw Hin.
      by apply list_elem_of_filter in Hin as [? _].
  - rewrite Hov', Ha, length_fmap. destruct Hov_nil as [->|Hnil].
    + by apply drop_app_length'.
    + rewrite Hnil, app_nil_r. apply drop_ge. lia.
  - rewrite Hkw', Hk, filter_app, (filter_none _ kws), Hkw by done. simpl.
    apply list_filter_filter_l. done.
Qed.

Lemma position_Some names name j :
  position names name = Some j → names !! j = Some name.
Proof.
  unfold position. destruct (list_find _ names) as [[i x]|] eqn:Hf; [|done].
  intros [= <-]. apply list_find_Some in Hf as (? & -> & _). done.
Qed.

Lemma position_is_Some names name :
  name ∈ names → is_Some (position names name).
Proof.
  intros Hin. unfold position.
  destruct (list_find_elem_of (λ n, n = name) names name Hin eq_refl) as [[i x] ->].
  by eexists.
Qed.

Lemma position_None names name : name ∉ names → position names name = None.
Proof.
  intros Hn. destruct (position names name) as [j|] eqn:Hp; [|done].
  apply position_Some in Hp. destruct Hn. by eapply list_elem_of_lookup_2.
Qed.

Lemma StronglySorted_lt_NoDup (l : list nat) : StronglySorted lt l → NoDup l.
Proof.
  induction 1 as [|x l _ IH Hx]; constructor; [|done].
  intros Hin. rewrite Forall_forall in Hx. specialize (Hx _ Hin). lia.
Qed.

Lemma declared_keywords_NoDup names (kws : list (string * string)) :
  NoDup (omap (λ kw, position names kw.1) kws) →
  NoDup (filter (λ kw, kw.1 ∈ names) kws).*1.
Proof.
  induction kws as [|[name v] kws IH]; [constructor|].
  rewrite omap_cons. simpl. destruct (decide (name ∈ names)) as [Hin|Hin].
  - destruct (position_is_Some _ _ Hin) as [j Hj]. rewrite Hj.
    intros [Hj' Hnd]%NoDup_cons.
    rewrite filter_cons_True, fmap_cons by done. apply NoDup_cons.
    split; [|by apply IH]. simpl. intros Hname. apply Hj'.
    apply list_elem_of_fmap in Hname as ([name' v'] & Heq & Hkw).
    simpl in Heq; subst name'. apply list_elem_of_filter in Hkw as [_ Hkw].
    apply list_elem_of_omap. by exists (name, v').
  - rewrite (position_None _ _ Hin), filter_cons_False by done. apply IH.
Qed.

Lemma fst_zip_take {A B} (l : list A) (k : list B) :
  (zip l k).*1 = take (length k) l.
Proof.
  revert k. induction l as [|x l IH]; intros [|y k]; simpl; [done..|].
  by rewrite IH.
Qed.

Lemma insert_all_lookup_notin l : ∀ m k,
  k ∉ l.*1 → insert_all l m !! k = m !! k.
Proof.
  induction l as [|[k' v'] l IH]; intros m k Hk; simpl; [done|].
  rewrite fmap_cons, not_elem_of_cons in Hk. destruct Hk as [Hne Hk].
  rewrite IH by done. by rewrite lookup_insert_ne.
Qed.

Lemma insert_all_lookup_NoDup l : ∀ m k v,
  NoDup l.*1 → (k, v) ∈ l → insert_all l m !! k = Some v.
Proof.
  induction l as [|[k' v'] l IH]; intros m k v Hnd Hin; simpl.
  - by apply elem_of_nil in Hin.
  - rewrite fmap_cons in Hnd. apply NoDup_cons in Hnd as [Hk' Hnd].
    apply elem_of_cons in Hin as [[= -> ->]|Hin].
    + rewrite insert_all_lookup_notin by done. apply lookup_insert_eq.
    + by apply IH.
Qed.

Lemma insert_all_lookup_inv l : ∀ m k v,
  insert_all l m !! k = Some v → (k, v) ∈ l ∨ m !! k = Some v.
Proof.
  induction l as [|[k' v'] l IH]; intros m k v Hl; simpl in *; [by right|].
  apply IH in Hl as [Hl|Hl]; [left; by right|].
  destruct (decide (k' = k)) as [->|Hne].
  - rewrite lookup_insert_eq in Hl. injection Hl as ->. left; left.
  - rewrite lookup_insert_ne in Hl by done. by right.
Qed.

Lemma positional_lookup names (args : list string) i name :
  NoDup names → names !! i = Some name →
  insert_all (zip names args) ∅ !! name = args !! i.
Proof.
  intros Hnd Hi.
  assert (NoDup (zip names args).*1) as Hnd'.
  { rewrite fst_zip_take. eapply sublist_NoDup; [done | apply sublist_take]. }
  destruct (args !! i) as [v|] eqn:Hv.
  - apply insert_all_lookup_NoDup; [done|].
    eapply list_elem_of_lookup_2 with i. rewrite lookup_zip_with, Hi. simpl.
    by rewrite Hv.
  - rewrite insert_all_lookup_notin; [by rewrite lookup_empty|].
    rewrite fst_zip_take. intros Hin. apply elem_of_take in Hin as (j & Hj & Hlt).
    assert (i = j) by (eapply (NoDup_lookup names); eauto). subst j.
    apply lookup_ge_None in Hv. lia.
Qed.

Lemma bound_values_eq pd (l : list (string * option string)) (args : list string) :
  length l = length args →
  (∀ i p, l !! i = Some p → pd !! p.1 = args !! i) →
  omap (value_of pd) l = args.
Proof.
  revert args. induction l as [|p l IH]; intros [|a args] Hlen Hl; try done.
  rewrite omap_cons. change (value_of pd p) with (pd !! p.1).
  rewrite (Hl 0 p eq_refl). simpl. f_equal. apply IH; [by injection Hlen|].
  intros i q Hq. apply (Hl (S i) q Hq).
Qed.

Lemma keyword_of_names pd (l : list (string * option string)) :
  (omap (keyword_of pd) l).*1 `sublist_of` l.*1.
Proof.
  induction l as [|[name dflt] l IH]; [done|].
  rewrite omap_cons, fmap_cons.
  change (keyword_of pd (name, dflt)) with ((λ v, (name, v)) <$> pd !! name).
  destruct (pd !! name); simpl; by constructor.
Qed.

Lemma split_kept (D : DefinitionInfo.t string) (C : CallInfo.t) :
  NoDup (DefinitionInfo.names D) →
  in_definition_order D C →
  next_not_keyword D C →
  let C' := to_call_info (init D C) D in
  CallInfo.args C' = CallInfo.args C
  ∧ CallInfo.keywords C' ≡ₚ CallInfo.keywords C.
Proof.
  intros Hnd Hord Hnext C'.
  destruct (init_spec D C) as (Hpd & Hov & Hkw & _).
  destruct (to_call_info_fields (init D C) D) as (Ha & Hk & _).
  fold C' in Ha, Hk.
  unfold in_definition_order, bound_positions, next_not_keyword in *.
  unfold DefinitionInfo.names in *.
  set (m := init D C) in *.
  set (params := DefinitionInfo.args_with_defaults D) in *.
  set (names := params.*1) in *.
  set (args := CallInfo.args C) in *.
  set (kws := CallInfo.keywords C) in *.
  remember (filter (λ kw : string * string, kw.1 ∈ names) kws) as kwd eqn:Hkwd_def.
  apply StronglySorted_app in Hord as (Hlt & _ & Hsorted).
  assert (NoDup kwd.*1) as Hkwd
    by (subst kwd; by apply declared_keywords_NoDup, StronglySorted_lt_NoDup).
  (* keywords do not name a parameter that is passed positionally *)
  assert (∀ i name, names !! i = Some name → i < length args →
            name ∉ kwd.*1) as Hfresh.
  { intros i name Hi Hlen Hin.
    apply list_elem_of_fmap in Hin as ([name' v] & Heq & Hin).
    simpl in Heq; subst name'. rewrite Hkwd_def in Hin.
    apply list_elem_of_filter in Hin as [Hdecl Hin].
    destruct (position_is_Some _ _ Hdecl) as [j Hj]. simpl in Hj.
    assert (j = i) as ->.
    { apply position_Some in Hj. eapply (NoDup_lookup names); eauto. }
    assert (i < i); [|lia]. apply Hlt.
    - apply elem_of_seq. apply lookup_lt_Some in Hi. lia.
    - apply list_elem_of_omap. by exists (name, v). }
  (* positional bindings *)
  assert (∀ i p, params !! i = Some p → i < length args →
            param_dict m !! p.1 = args !! i) as Hposl.
  { intros i [name dflt] Hi Hlen. simpl.
    assert (names !! i = Some name) as Hn
      by (unfold names; by rewrite list_lookup_fmap, Hi).
    rewrite Hpd, insert_all_lookup_notin by eauto.
    by apply positional_lookup. }
  destruct (walk_shape (param_dict m) params) as (k & Hle & Hb & Hgap & Hw).
  rewrite Hw in Ha, Hk. simpl in Ha, Hk.
  assert (length names = length params) as Hlen_names
    by (unfold names; by rewrite length_fmap).
  destruct (decide (length params ≤ length args)) as [Hmn|Hmn].
  - (* every parameter is passed positionally *)
    assert (k = length params) as ->.
    { destruct Hgap as [?|(p & Hp & Hnone)]; [done|].
      assert (k < length args) by (apply lookup_lt_Some in Hp; lia).
      rewrite (Hposl k p Hp) in Hnone by done.
      apply lookup_ge_None in Hnone. lia. }
    rewrite firstn_all in Ha. rewrite drop_all in Hk. simpl in Hk.
    assert (kwd = []) as Hnil.
    { destruct kwd as [|[name v] kwd'] eqn:Hkwd_eq; [done|]. exfalso.
      assert ((name, v) ∈ filter (λ kw : string * string, kw.1 ∈ names) kws)
        as Hin by (rewrite <-Hkwd_def; left).
      apply list_elem_of_filter in Hin as [Hdecl Hin]. simpl in Hdecl.
      apply list_elem_of_lookup in Hdecl as [i Hi].
      apply (Hfresh i name Hi).
      + apply lookup_lt_Some in Hi. lia.
      + left. }
    split.
    + rewrite Ha, Hov, Hlen_names.
      rewrite <-(take_drop (length params) args) at 2. f_equal.
      apply bound_values_eq.
      * rewrite length_take. lia.
      * intros i p Hp. rewrite lookup_take_lt by (by eapply lookup_lt_Some).
        apply Hposl; [done|]. apply lookup_lt_Some in Hp. lia.
    + rewrite Hk, Hkw. rewrite <-(filter_app_complement (λ kw : string * string, kw.1 ∈ names) kws) at 2.
      by rewrite <-Hkwd_def, Hnil.
  - (* the parameter after the positional arguments has no binding *)
    assert (length args < length params) as Hlt' by lia.
    destruct (lookup_lt_is_Some_2 params (length args) Hlt') as [[name0 dflt0] Hp0].
    assert (names !! length args = Some name0) as Hn0
      by (unfold names; by rewrite list_lookup_fmap, Hp0).
    assert (param_dict m !! name0 = None) as Hnone0.
    { rewrite Hpd, insert_all_lookup_notin.
      - rewrite (positional_lookup names args (length args) name0) by done.
        by apply lookup_ge_None.
      - intros Hin. apply (Hnext name0 Hn0).
        apply list_elem_of_fmap in Hin as (kw & -> & Hin).
        rewrite Hkwd_def in Hin. apply list_elem_of_filter in Hin as [_ Hin].
        apply list_elem_of_fmap. by exists kw. }
    assert (k = length args) as ->.
    { destruct (decide (k = length args)) as [|Hne]; [done|]. exfalso.
      destruct (decide (k < length args)) as [Hklt|Hkge].
      - destruct Hgap as [?|(p & Hp & Hnone)]; [lia|].
        rewrite (Hposl k p Hp) in Hnone by done.
        apply lookup_ge_None in Hnone. lia.
      - rewrite Forall_forall in Hb.
        destruct (Hb (name0, dflt0)) as [v Hv]; [|simpl in Hv; congruence].
        apply elem_of_take. exists (length args). split; [done | lia]. }
    split.
    + rewrite Ha, Hov, drop_ge, app_nil_r by lia.
      apply bound_values_eq.
      * rewrite length_take. lia.
      * intros i p Hp.
        assert (i < length args) as Hi.
        { apply lookup_lt_Some in Hp. rewrite length_take in Hp. lia. }
        rewrite lookup_take_lt in Hp by done. by apply Hposl.
    + rewrite Hk, Hkw. rewrite <-(filter_app_complement (λ kw : string * string, kw.1 ∈ names) kws) at 2.
      rewrite <-Hkwd_def. apply Permutation_app_tail.
      apply NoDup_Permutation.
      * apply (NoDup_fmap_1 fst).
        eapply sublist_NoDup; [|apply keyword_of_names].
        rewrite fmap_drop. eapply sublist_NoDup; [exact Hnd | apply sublist_drop].
      * by apply (NoDup_fmap_1 fst).
      * intros [name v]. rewrite list_elem_of_omap. split.
        -- intros ([name' dflt] & Hin & Hkwof). unfold keyword_of in Hkwof.
           simpl in Hkwof.
           destruct (param_dict m !! name') as [v'|] eqn:Hv; [|done].
           injection Hkwof as -> ->.
           rewrite Hpd in Hv. apply insert_all_lookup_inv in Hv as [Hv|Hv]; [done|].
           exfalso. apply list_elem_of_lookup in Hin as [j Hj].
           rewrite lookup_drop in Hj.
           assert (names !! (length args + j) = Some name) as Hn
             by (unfold names; by rewrite list_lookup_fmap, Hj).
           rewrite (positional_lookup names args _ name Hnd Hn) in Hv.
           apply lookup_lt_Some in Hv. lia.
        -- intros Hin.
           assert (name ∈ names) as Hdecl.
           { rewrite Hkwd_def in Hin. by apply list_elem_of_filter in Hin as [? _]. }
           assert (param_dict m !! name = Some v) as Hv
             by (rewrite Hpd; by apply insert_all_lookup_NoDup).
           apply list_elem_of_lookup in Hdecl as [i Hi].
           assert (length args ≤ i) as Hge.
           { destruct (decide (length args ≤ i)); [done|]. exfalso.
             apply (Hfresh i name Hi); [lia|].
             apply list_elem_of_fmap. by exists (name, v). }
           unfold names in Hi. rewrite list_lookup_fmap in Hi.
           destruct (params !! i) as [[name' dflt]|] eqn:Hp; [|done].
           injection Hi as ->.
           exists (name, dflt). split.
           ++ apply list_elem_of_lookup. exists (i - length args).
              rewrite lookup_drop. by replace (length args + (i - length args)) with i by lia.
           ++ unfold keyword_of. simpl. by rewrite Hv.
Qed.

(** ** Rendering a mapping *)

Lemma walk_at_gap pd : ∀ (params : params_t) k,
  Forall (bound pd) (take k params) →
  (∃ p, params !! k = Some p ∧ pd !! p.1 = None) →
  walk pd params
  = (omap (value_of pd) (take k params), omap (keyword_of pd) (drop k params)).
Proof.
  induction params as [|[name dflt] params IH]; intros k Hb (p & Hp & Hnone).
  - by rewrite lookup_nil in Hp.
  - destruct k as [|k]; simpl in *.
    + injection Hp as <-. simpl in Hnone. rewrite Hnone.
      rewrite keyword_pass_omap.
      change (keyword_of pd (name, dflt)) with ((λ v, (name, v)) <$> pd !! name).
      by rewrite Hnone.
    + apply Forall_cons in Hb as [[v Hv] Hb]. simpl in Hv. rewrite Hv.
      rewrite (IH k Hb) by eauto.
      change (value_of pd (name, dflt)) with (pd !! name). by rewrite Hv.
Qed.

(** C2.  [to_call_info] walks the parameters once.  When [k] is the first
    parameter without a binding, the [k] parameters before it are emitted
    positionally, in order, and every bound parameter from [k] on is emitted
    as a keyword argument, the unbound ones being skipped; nothing after [k]
    is emitted positionally, the overflow apart.  In particular, for
    [def f(a, b, c)] with bindings for [a] and [c] only, [a] is positional,
    [c] is a keyword and [b] is left out. *)
Theorem gap_switches_to_keywords :
  (∀ (m : ArgumentMapping.t) (D : DefinitionInfo.t string) (k : nat),
     let params := DefinitionInfo.args_with_defaults D in
     let pd := param_dict m in
     Forall (bound pd) (take k params) →
     (∃ p, params !! k = Some p ∧ pd !! p.1 = None) →
     CallInfo.args (to_call_info m D)
     = omap (value_of pd) (take k params) ++ args_arg m
     ∧ length (omap (value_of pd) (take k params)) = k
     ∧ CallInfo.keywords (to_call_info m D)
       = omap (keyword_of pd) (drop k params) ++ keyword_args m)
  ∧ (∀ (ci : CallInfo.t) (va vc : string),
       let m := {| call_info := ci;
                   param_dict := {[ "a" := va; "c" := vc ]};
                   keyword_args := [];
                   args_arg := [] |} in
       CallInfo.args (to_call_info m Sample.f_a_b_c) = [va]
       ∧ CallInfo.keywords (to_call_info m Sample.f_a_b_c) = [("c", vc)]).
Proof.
  split.
  - intros m D k params pd Hb Hgap.
    destruct (to_call_info_fields m D) as (-> & -> & _).
    fold params pd. rewrite (walk_at_gap pd params k Hb Hgap). simpl.
    split_and!; [done| |done].
    destruct (zip_bound_values pd _ Hb) as [_ ->].
    destruct Hgap as (p & Hp & _). apply lookup_lt_Some in Hp.
    rewrite length_take. lia.
  - intros ci va vc m.
    assert (param_dict m !! "a" = Some va) as Ha
      by (simpl; by rewrite lookup_insert_eq).
    assert (param_dict m !! "b" = None) as Hb
      by (simpl; rewrite lookup_insert_ne by done; by rewrite lookup_singleton_ne).
    assert (param_dict m !! "c" = Some vc) as Hc
      by (simpl; rewrite lookup_insert_ne by done; by rewrite lookup_singleton_eq).
    destruct (to_call_info_fields m Sample.f_a_b_c) as (-> & -> & _).
    generalize dependent (param_dict m). intros pd Ha Hb Hc.
    simpl. by rewrite Ha, Hb, Hc.
Qed.

(** [def f(a, b, c)] with [a] bound to [1] and [c] to [3]: the gap is at
    position 1. *)
Lemma gap_switches_to_keywords_witness :
  let m := {| call_info := Sample.call "f" ["1"] [("c", "3")];
              param_dict := {[ "a" := "1"; "c" := "3" ]};
              keyword_args := [];
              args_arg := [] |} in
  CallInfo.args (to_call_info m Sample.f_a_b_c) = ["1"]
  ∧ CallInfo.keywords (to_call_info m Sample.f_a_b_c) = [("c", "3")].
Proof.
  intros m.
  destruct (proj1 gap_switches_to_keywords m Sample.f_a_b_c 1) as (Ha & _ & Hk).
  - repeat constructor. exists "1". reflexivity.
  - exists ("b", None). split; reflexivity.
  - split; [exact Ha | exact Hk].
Defined.

Lemma walk_delete old pd : ∀ (params : params_t),
  old ∉ params.*1 → walk (delete old pd) params = walk pd params.
Proof.
  assert (∀ params : params_t, old ∉ params.*1 →
            keyword_pass (delete old pd) params = keyword_pass pd params) as Hkw.
  { induction params as [|[name dflt] params IH]; intros Hold; [done|].
    rewrite fmap_cons, not_elem_of_cons in Hold. destruct Hold as [Hne Hold].
    simpl in *. rewrite lookup_delete_ne by done. by rewrite IH. }
  induction params as [|[name dflt] params IH]; intros Hold; [done|].
  pose proof (Hkw _ Hold) as Hkw'.
  rewrite fmap_cons, not_elem_of_cons in Hold. destruct Hold as [Hne Hold].
  simpl in *. rewrite lookup_delete_ne in * by done. rewrite IH by done.
  destruct (pd !! name); [done|]. by rewrite Hkw'.
Qed.

Lemma renamed_names (D : DefinitionInfo.t string) k old dflt new :
  DefinitionInfo.args_with_defaults D !! k = Some (old, dflt) →
  DefinitionInfo.names (rename_parameter D k new)
  = <[k := new]> (DefinitionInfo.names D).
Proof.
  intros Hk. unfold DefinitionInfo.names, rename_parameter. simpl.
  apply list_eq. intros i. rewrite list_lookup_fmap.
  destruct (decide (i = k)) as [->|Hne].
  - rewrite list_lookup_alter_eq, Hk. simpl.
    rewrite list_lookup_insert_eq; [done|].
    rewrite length_fmap. by eapply lookup_lt_Some.
  - rewrite list_lookup_alter_ne, list_lookup_insert_ne by done.
    by rewrite list_lookup_fmap.
Qed.

(** C4 (amended).  Bindings are kept by parameter name, so a rename is not
    followed.  Let [D'] be [D], whose names are distinct, with the parameter
    at position [k] renamed to a name [D] does not declare.  The mapping built
    from [(D, C)] has no binding for the new name; rendering it against [D']
    gives what it gives once the old name's binding is deleted, so the text
    bound to the renamed parameter plays no part; the walk stops emitting
    positional arguments at the renamed slot at the latest and emits no
    keyword for it. *)
Theorem rename_drops_binding (D : DefinitionInfo.t string) (C : CallInfo.t)
    (k : nat) (old : string) (dflt : option string) (new : string) :
  NoDup (DefinitionInfo.names D) →
  DefinitionInfo.args_with_defaults D !! k = Some (old, dflt) →
  new ∉ DefinitionInfo.names D →
  let m := init D C in
  let D' := rename_parameter D k new in
  param_dict m !! new = None
  ∧ to_call_info m D' = to_call_info (without old m) D'
  ∧ length (walk (param_dict m) (DefinitionInfo.args_with_defaults D')).1 ≤ k
  ∧ new ∉ (walk (param_dict m) (DefinitionInfo.args_with_defaults D')).2.*1.
Proof.
  intros Hnd Hk Hnew m D'.
  assert (param_dict m !! new = None) as Hnone.
  { apply not_elem_of_dom. intros Hin. apply Hnew.
    apply (init_dom D C) in Hin. by apply elem_of_list_to_set in Hin. }
  assert (DefinitionInfo.names D !! k = Some old) as Hold
    by (unfold DefinitionInfo.names; by rewrite list_lookup_fmap, Hk).
  assert (DefinitionInfo.args_with_defaults D' !! k = Some (new, dflt)) as Hk'.
  { unfold D', rename_parameter. simpl. by rewrite list_lookup_alter_eq, Hk. }
  split_and!.
  - done.
  - assert (old ∉ DefinitionInfo.names (rename_parameter D k new)) as Hfresh;
      [|unfold to_call_info, without; simpl; by rewrite walk_delete].
    rewrite (renamed_names D k old dflt new Hk).
    intros Hin. apply list_elem_of_lookup in Hin as [j Hj].
    destruct (decide (j = k)) as [->|Hne].
    + rewrite list_lookup_insert_eq in Hj by (by eapply lookup_lt_Some).
      injection Hj as ->. apply Hnew. by eapply list_elem_of_lookup_2.
    + rewrite list_lookup_insert_ne in Hj by done.
      apply Hne. eapply (NoDup_lookup (DefinitionInfo.names D)); eauto.
  - destruct (walk_shape (param_dict m) (DefinitionInfo.args_with_defaults D'))
      as (g & Hle & Hb & _ & ->). cbn [fst snd].
    destruct (zip_bound_values _ _ Hb) as [_ ->]. rewrite length_take.
    destruct (decide (g ≤ k)); [lia|]. exfalso.
    rewrite Forall_forall in Hb.
    destruct (Hb (new, dflt)) as [v Hv]; [|simpl in Hv; congruence].
    apply elem_of_take. exists k. split; [done | lia].
  - destruct (walk_shape (param_dict m) (DefinitionInfo.args_with_defaults D'))
      as (g & _ & _ & _ & ->). cbn [fst snd].
    intros Hin. apply list_elem_of_fmap in Hin as ([name v] & -> & Hin).
    pose proof (keyword_of_sound (param_dict m)
                  (drop g (DefinitionInfo.args_with_defaults D'))) as Hs.
    rewrite Forall_forall in Hs. destruct (Hs _ Hin) as [Hv _].
    simpl in *. congruence.
Qed.

(** [def f(a, b)] called as [f(1, 2)], [b] renamed to [c]. *)
Lemma rename_drops_binding_witness :
  let m := init Sample.f_a_b (Sample.call "f" ["1"; "2"] []) in
  let D' := rename_parameter Sample.f_a_b 1 "c" in
  param_dict m !! "c" = None
  ∧ to_call_info m D' = to_call_info (without "b" m) D'
  ∧ length (walk (param_dict m) (DefinitionInfo.args_with_defaults D')).1 ≤ 1
  ∧ "c" ∉ (walk (param_dict m) (DefinitionInfo.args_with_defaults D')).2.*1.
Proof.
  apply (rename_drops_binding Sample.f_a_b (Sample.call "f" ["1"; "2"] [])
           1 "b" None "c").
  - compute_done.
  - reflexivity.
  - compute_done.
Defined.

(** C4 as stated fails.  [f(1, 2)] against [def f(a, b)] binds [b] to [2];
    rendered against [def f(a, c)] the call is [f(1)]: the renamed slot
    receives nothing. *)
Lemma rename_counterexample :
  to_call_info (init Sample.f_a_b (Sample.call "f" ["1"; "2"] [])) Sample.f_a_c
  = Sample.call "f" ["1"] []
  ∧ param_dict (init Sample.f_a_b (Sample.call "f" ["1"; "2"] [])) !! "b"
    = Some "2".
Proof. split; reflexivity. Qed.

(** C5.  [f(1, 2, 3)] against [def f(a, b, *rest)] binds [a] to [1], [b] to
    [2] and leaves [3] as positional overflow.  Rendered against
    [def f(a, b, c, *rest)], where [c] has no binding, the call still carries
    [3] as a trailing positional argument: [f(1, 2, 3)].  For every mapping
    and definition the overflow is appended to what the parameter walk has
    produced, positional overflow after the walk's positional arguments and
    keyword overflow after the walk's keywords. *)
Theorem overflow_routing :
  let C := Sample.call "f" ["1"; "2"; "3"] [] in
  let m := init Sample.f_a_b_rest C in
  let C' := to_call_info m Sample.f_a_b_c_rest in
  (param_dict m = {[ "a" := "1"; "b" := "2" ]}
   ∧ args_arg m = ["3"]
   ∧ keyword_args m = [])
  ∧ (param_dict m !! "c" = None
     ∧ CallInfo.args C' = ["1"; "2"; "3"]
     ∧ CallInfo.keywords C' = []
     ∧ CallInfo.to_string C' = inr "f(1, 2, 3)")
  ∧ (∀ (m : ArgumentMapping.t) (D : DefinitionInfo.t string),
       CallInfo.args (to_call_info m D)
       = (walk (param_dict m) (DefinitionInfo.args_with_defaults D)).1
         ++ args_arg m
       ∧ CallInfo.keywords (to_call_info m D)
         = (walk (param_dict m) (DefinitionInfo.args_with_defaults D)).2
           ++ keyword_args m).
Proof.
  intros C m C'. split_and!; try reflexivity.
  intros m0 D. by destruct (to_call_info_fields m0 D) as (-> & -> & _).
Qed.

(** C1 (amended).  Rendering the mapping built from [(D, C)] back against
    [D] binds the same texts to the same parameters: the mapping built from
    the rendered call has the [param_dict], the positional overflow and the
    keyword overflow of the first one, and the rendered call keeps [C]'s
    callee name, spread arguments and flags.  The split between positional
    and keyword arguments is kept (the same positional arguments, the same
    keywords up to their order) when [D]'s names are distinct, [C] follows
    [D]'s parameter order and [C] does not pass by keyword the parameter that
    comes right after its positional arguments. *)
Theorem roundtrip_unedited :
  (∀ (D : DefinitionInfo.t string) (C : CallInfo.t),
     let m := init D C in
     let C' := to_call_info m D in
     let m' := init D C' in
     param_dict m' = param_dict m
     ∧ args_arg m' = args_arg m
     ∧ keyword_args m' = keyword_args m
     ∧ CallInfo.function_name C' = CallInfo.function_name C
     ∧ CallInfo.args_arg C' = CallInfo.args_arg C
     ∧ CallInfo.keywords_arg C' = CallInfo.keywords_arg C
     ∧ CallInfo.implicit_arg C' = CallInfo.implicit_arg C
     ∧ CallInfo.constructor C' = CallInfo.constructor C)
  ∧ (∀ (D : DefinitionInfo.t string) (C : CallInfo.t),
       NoDup (DefinitionInfo.names D) →
       in_definition_order D C →
       next_not_keyword D C →
       let C' := to_call_info (init D C) D in
       CallInfo.args C' = CallInfo.args C
       ∧ CallInfo.keywords C' ≡ₚ CallInfo.keywords C).
Proof.
  split.
  - intros D C m C' m'.
    destruct (rebuild_after_render D C) as (? & ? & ?).
    destruct (to_call_info_fields m D) as (_ & _ & ? & ? & ? & ? & ?).
    destruct (init_spec D C) as (_ & _ & _ & Hci). fold m in Hci.
    rewrite Hci in *. by split_and!.
  - apply split_kept.
Qed.

(** [f(1, c=3, x=9)] against [def f(a, b, c)]. *)
Lemma roundtrip_unedited_witness :
  let D := Sample.f_a_b_c in
  let C := Sample.call "f" ["1"] [("c", "3"); ("x", "9")] in
  let C' := to_call_info (init D C) D in
  CallInfo.args C' = CallInfo.args C
  ∧ CallInfo.keywords C' ≡ₚ CallInfo.keywords C.
Proof.
  apply (proj2 roundtrip_unedited Sample.f_a_b_c
           (Sample.call "f" ["1"] [("c", "3"); ("x", "9")])).
  - compute_done.
  - compute_done.
  - intros name [= <-]. compute_done.
Defined.

(** C1 as stated fails.  The call [f(1, b=2)] follows the parameter order of
    [def f(a, b)], whose names are distinct, yet it is rendered back as
    [f(1, 2)]: [b] leaves the keywords and joins the positional arguments. *)
Lemma roundtrip_split_counterexample :
  let D := Sample.f_a_b in
  let C := Sample.call "f" ["1"] [("b", "2")] in
  let C' := to_call_info (init D C) D in
  (in_definition_order D C ∧ NoDup (DefinitionInfo.names D))
  ∧ (CallInfo.args C = ["1"] ∧ CallInfo.keywords C = [("b", "2")])
  ∧ (CallInfo.args C' = ["1"; "2"] ∧ CallInfo.keywords C' = [])
  ∧ CallInfo.to_string C' = inr "f(1, 2)".
Proof. split_and!; first [reflexivity | compute_done]. Qed.

(** ** The parsers *)

(** C3 (amended).  For a constructor call it is [CallInfo.read] itself that
    puts the synthetic argument in: what it returns is what it returns with
    the constructor flag off, with the name of the definition's first
    parameter in front of the positional arguments ([IndexError] for a
    definition without parameters).  [ArgumentMapping] does not shift
    anything: the mapping it builds does not depend on the flag. *)
Theorem read_prepends_for_constructor :
  (∀ `{Collaborators} (is_method_call is_classmethod : bool)
      (D : DefinitionInfo.t string) (code : string),
     CallInfo.read is_method_call true is_classmethod D code
     = ci ← CallInfo.read is_method_call false is_classmethod D code;
       match DefinitionInfo.args_with_defaults D with
       | (name, _) :: _ =>
           mret {| CallInfo.function_name := CallInfo.function_name ci;
                   CallInfo.args := name :: CallInfo.args ci;
                   CallInfo.keywords := CallInfo.keywords ci;
                   CallInfo.args_arg := CallInfo.args_arg ci;
                   CallInfo.keywords_arg := CallInfo.keywords_arg ci;
                   CallInfo.implicit_arg := CallInfo.implicit_arg ci;
                   CallInfo.constructor := true |}
       | [] => raise IndexError
       end)
  ∧ (∀ (D : DefinitionInfo.t string) (C : CallInfo.t) (b : bool),
       param_dict (init D (with_constructor b C)) = param_dict (init D C)
       ∧ args_arg (init D (with_constructor b C)) = args_arg (init D C)
       ∧ keyword_args (init D (with_constructor b C)) = keyword_args (init D C)).
Proof.
  split.
  - intros H imc icm D code. unfold CallInfo.read.
    destruct (FunctionCallParser.init code (imc || icm) false) as [e|info];
      [done|]. simpl.
    destruct (FunctionCallParser.get_parameters info) as [e|[args keywords]];
      [done|]. simpl.
    destruct (split_stars args) as [[args' args_arg] keywords_arg].
    by destruct (DefinitionInfo.args_with_defaults D) as [|[name dflt] ?].
  - intros D C b. unfold init, with_constructor. simpl.
    destruct (bind_args _ _ _ _ _) as [pd ov].
    by destruct (bind_keywords _ _ _ _) as [pd' extra].
Qed.

(** C3 as stated fails.  Reading [C(1)] as a constructor call against
    [def __init__(self, x)] gives the positional arguments [self, 1]; read as
    a plain call it gives [1]. *)
Lemma read_constructor_counterexample :
  @CallInfo.read Sample.collaborators false true false Sample.init_self_x "C(1)"
  = inr {| CallInfo.function_name := "C";
           CallInfo.args := ["self"; "1"];
           CallInfo.keywords := [];
           CallInfo.args_arg := None;
           CallInfo.keywords_arg := None;
           CallInfo.implicit_arg := false;
           CallInfo.constructor := true |}
  ∧ @CallInfo.read Sample.collaborators false false false Sample.init_self_x "C(1)"
    = inr (Sample.call "C" ["1"] []).
Proof. split; reflexivity. Qed.

Lemma keyword_values_spread lines (kws : list Ast.keyword) :
  (∃ kw, kw ∈ kws ∧ Ast.kw_arg kw = None) →
  FunctionCallParser.keyword_values lines kws = inl AssertionError.
Proof.
  intros (kw & Hin & Hnone).
  induction kws as [|kw' kws IH]; [by apply elem_of_nil in Hin|].
  simpl. destruct (Py.truthy (Ast.kw_arg kw')) eqn:Ht; [|done]. simpl.
  apply elem_of_cons in Hin as [->|Hin].
  - by rewrite Hnone in Ht.
  - by rewrite IH.
Qed.

(** C6, on the code.  A call whose tree has a keyword without a name, which
    is how [ast] represents a [**mapping] argument, is never read: once the
    base parser has located the parentheses, [get_parameters] stops at
    [assert kw.arg]. *)
Theorem keyword_spread_rejected `{Collaborators}
    (is_method_call is_constructor is_classmethod : bool)
    (D : DefinitionInfo.t string) (code : string)
    (cargs : list Ast.node) (ckeywords : list Ast.keyword)
    (rest : list Ast.stmt) :
  ast_parse code = Some (Ast.Expr (Ast.Call cargs ckeywords) :: rest) →
  (∃ kw, kw ∈ ckeywords ∧ Ast.kw_arg kw = None) →
  CallInfo.read is_method_call is_constructor is_classmethod D code
  = match BaseFunctionParser.init code (is_method_call || is_classmethod) false with
    | inl e => inl e
    | inr _ => inl AssertionError
    end.
Proof.
  intros Hparse Hspread. unfold CallInfo.read, FunctionCallParser.init.
  destruct (BaseFunctionParser.init code _ false) as [e|b]; [done|]. simpl.
  rewrite Hparse. simpl. unfold FunctionCallParser.get_parameters. simpl.
  by rewrite keyword_values_spread.
Qed.

(** [f(x, **d)] *)
Lemma keyword_spread_rejected_witness :
  @CallInfo.read Sample.collaborators false false false Sample.f_a_b "f(x, **d)"
  = inl AssertionError.
Proof.
  apply (@keyword_spread_rejected Sample.collaborators false false false
           Sample.f_a_b "f(x, **d)" [Sample.span 2 3]
           [Ast.Keyword None (Sample.span 7 8)] []).
  - reflexivity.
  - exists (Ast.Keyword None (Sample.span 7 8)). split; [left | reflexivity].
Defined.

Lemma source_range_on_line_1 (lines : SourceLinesAdapter.t) (a b : nat) :
  SourceLinesAdapter.get_line_start lines 1 = 0 →
  BaseFunctionParser._get_source_range lines (Ast.Node 1 a 1 b)
  = Py.slice a b (SourceLinesAdapter.code lines).
Proof. intros Hline. unfold BaseFunctionParser._get_source_range. simpl. by rewrite Hline. Qed.

Lemma source_ranges_defaults {K} lines (l : list K) (ds : list Ast.node) :
  FunctionDefParser.source_ranges lines (Py.zip l (Some <$> ds))
  = inr (zip l (BaseFunctionParser._get_source_range lines <$> ds)).
Proof.
  revert ds. induction l as [|x l IH]; intros [|d ds]; try done.
  simpl. unfold Py.zip in IH. by rewrite IH.
Qed.

(** With a variadic-positional parameter in the header, the default texts
    are paired with the names one place too far to the right: the last one
    goes to the starred name, and the first parameter that has a default is
    returned as a parameter without one. *)
Lemma vararg_shifts_defaults (p : FunctionDefParser.t) (v : Ast.arg_) :
  let a := FunctionDefParser.ast_args p in
  let names := positional_names a in
  let texts :=
    BaseFunctionParser._get_source_range (FunctionDefParser._lines p)
      <$> Ast.defaults a in
  let first_default := S (length names) - length (Ast.defaults a) in
  Ast.vararg a = Some v →
  Ast.kwarg a = None → Ast.kwonlyargs a = [] → Ast.kw_defaults a = [] →
  0 < length (Ast.defaults a) ≤ length names →
  FunctionDefParser.get_parameters p
  = inr (take first_default names,
         prod_map Name id
           <$> zip (drop first_default (names ++ ["*" +:+ Ast.arg v])) texts).
Proof.
  intros a names texts first_default Hv Hkwarg Hkwonly Hkwd [Hpos Hle].
  unfold FunctionDefParser.get_parameters.
  subst texts first_default names a. unfold positional_names in *.
  destruct (FunctionDefParser.ast_args p)
    as [posonly args vararg kwonly kw_defaults kwarg defaults].
  simpl in Hv, Hkwarg, Hkwonly, Hkwd, Hpos, Hle. subst.
  cbn [Ast.defaults Ast.posonlyargs Ast.args Ast.vararg Ast.kwarg
       Ast.kwonlyargs Ast.kw_defaults].
  set (names := (Ast.arg <$> posonly) ++ (Ast.arg <$> args)) in *.
  destruct (Nat.ltb_spec 0 (length defaults)) as [_|?]; [|lia].
  rewrite source_ranges_defaults. cbn [mbind result_bind mret result_ret length Nat.ltb Nat.leb].
  unfold Py.last_n, Py.del_last_n. rewrite length_app. simpl length.
  replace (length names + 1 - length defaults)
    with (S (length names) - length defaults) by lia.
  by rewrite take_app_le by lia.
Qed.

(** C7, on the code.  For the header [f(a, b=1, *rest)] the default text [1]
    ends up paired with [*rest], [b] is left without a default and no
    variadic-positional name is recorded. *)
Theorem default_paired_with_vararg `{Collaborators} :
  let header := "def f(a, b=1, *rest): pass" in
  ast_parse header = Some Sample.tree_def_f_a_b1_rest →
  SourceLinesAdapter.code (source_lines header) = header →
  SourceLinesAdapter.get_line_start (source_lines header) 1 = 0 →
  DefinitionInfo._read "function" "f(a, b=1, *rest)"
  = inr {| DefinitionInfo.function_name := "f";
           DefinitionInfo.is_method := false;
           DefinitionInfo.args_with_defaults :=
             [(Name "a", None); (Name "b", None); (Name "*rest", Some "1")];
           DefinitionInfo.args_arg := None;
           DefinitionInfo.keywords_arg := None |}.
Proof.
  intros header Hparse Hcode Hline.
  unfold DefinitionInfo._read, FunctionDefParser.init.
  change ("def " +:+ Py.rstrip_colon "f(a, b=1, *rest)" +:+ ": pass")
    with header.
  rewrite Hparse.
  assert (BaseFunctionParser.init "f(a, b=1, *rest)"
            (bool_decide ("function" = "method")) false
          = inr (BaseFunctionParser.mk "f(a, b=1, *rest)" false 15 1)) as ->
    by reflexivity.
  unfold Sample.tree_def_f_a_b1_rest, Sample.span.
  cbn -[BaseFunctionParser._get_source_range BaseFunctionParser.get_function_name].
  rewrite (source_range_on_line_1 _ 11 12 Hline), Hcode.
  reflexivity.
Qed.

(** The same header with the sample collaborators. *)
Lemma default_paired_with_vararg_witness :
  @DefinitionInfo._read Sample.collaborators "function" "f(a, b=1, *rest)"
  = inr {| DefinitionInfo.function_name := "f";
           DefinitionInfo.is_method := false;
           DefinitionInfo.args_with_defaults :=
             [(Name "a", None); (Name "b", None); (Name "*rest", Some "1")];
           DefinitionInfo.args_arg := None;
           DefinitionInfo.keywords_arg := None |}.
Proof.
  apply (@default_paired_with_vararg Sample.collaborators); reflexivity.
Defined.

Lemma split_stars_lone_star (args : list string) :
  split_stars (args ++ ["*"]) = (args, Some "", None).
Proof.
  unfold split_stars. rewrite last_snoc. simpl.
  by rewrite last_snoc, removelast_last.
Qed.

Lemma del_last_n_app {A} (xs ys : list A) (k : nat) :
  length ys = k → Py.del_last_n k (xs ++ ys) = xs.
Proof.
  intros <-. unfold Py.del_last_n. rewrite length_app.
  replace (length xs + length ys - length ys) with (length xs) by lia.
  apply take_app_length.
Qed.

Lemma get_parameters_keyword_only (p : FunctionDefParser.t) :
  Ast.defaults (FunctionDefParser.ast_args p) = [] →
  Ast.kwonlyargs (FunctionDefParser.ast_args p) ≠ [] →
  length (Ast.kw_defaults (FunctionDefParser.ast_args p))
  = length (Ast.kwonlyargs (FunctionDefParser.ast_args p)) →
  FunctionDefParser.get_parameters p
  = inr (collected (FunctionDefParser.ast_args p) ++ ["*"], []).
Proof.
  intros Hdef Hkw Hlen.
  unfold FunctionDefParser.get_parameters, collected, positional_names.
  destruct (FunctionDefParser.ast_args p)
    as [posonly args vararg kwonly kw_defaults kwarg defaults].
  simpl in Hdef, Hkw, Hlen. subst defaults.
  destruct kwonly as [|k kwonly]; [done|].
  destruct kw_defaults as [|d kw_defaults]; [done|].
  cbn [Ast.defaults Ast.posonlyargs Ast.args Ast.vararg Ast.kwarg
       Ast.kwonlyargs Ast.kw_defaults length Nat.ltb Nat.leb].
  cbn [mbind result_bind mret result_ret].
  unfold Py.last_n at 1, Py.zip at 1. rewrite drop_nil.
  cbn [combine FunctionDefParser.source_ranges mbind result_bind mret result_ret].
  f_equal. f_equal.
  rewrite (assoc_L (++) _ ["*"]).
  rewrite del_last_n_app by (rewrite length_fmap; simpl in *; lia).
  destruct vararg, kwarg; simpl; by rewrite <-?app_assoc, ?app_nil_r.
Qed.

(** C8, on the code.  For a header without positional defaults that has
    keyword-only parameters ([ast] gives one [kw_defaults] entry per
    keyword-only parameter), [_read] drops every keyword-only name: the
    parameters are the positional names, followed by the starred
    variadic-positional and the double-starred variadic-keyword names when
    the header has them; [args_arg] is the empty string and [keywords_arg]
    is [None]. *)
Theorem keyword_only_dropped `{Collaborators} (kind code : string)
    (p : FunctionDefParser.t) :
  FunctionDefParser.init code (bool_decide (kind = "method"))
    (bool_decide (kind = "lambda")) = inr p →
  Ast.defaults (FunctionDefParser.ast_args p) = [] →
  Ast.kwonlyargs (FunctionDefParser.ast_args p) ≠ [] →
  length (Ast.kw_defaults (FunctionDefParser.ast_args p))
  = length (Ast.kwonlyargs (FunctionDefParser.ast_args p)) →
  DefinitionInfo._read kind code
  = inr {| DefinitionInfo.function_name :=
             BaseFunctionParser.get_function_name (FunctionDefParser.base p);
           DefinitionInfo.is_method := bool_decide (kind = "method");
           DefinitionInfo.args_with_defaults :=
             (λ name, (Name name, None))
               <$> collected (FunctionDefParser.ast_args p);
           DefinitionInfo.args_arg := Some "";
           DefinitionInfo.keywords_arg := None |}.
Proof.
  intros Hinit Hdef Hkw Hlen. unfold DefinitionInfo._read.
  rewrite Hinit. cbn [mbind result_bind].
  rewrite (get_parameters_keyword_only p Hdef Hkw Hlen).
  cbn [mbind result_bind]. rewrite split_stars_lone_star.
  by rewrite app_nil_r.
Qed.

(** [f(a, *, k, **kw)]: [k] is gone and [**kw] is counted as a parameter. *)
Lemma keyword_only_dropped_witness :
  @DefinitionInfo._read Sample.collaborators "function" "f(a, *, k, **kw)"
  = inr {| DefinitionInfo.function_name := "f";
           DefinitionInfo.is_method := false;
           DefinitionInfo.args_with_defaults :=
             [(Name "a", None); (Name "**kw", None)];
           DefinitionInfo.args_arg := Some "";
           DefinitionInfo.keywords_arg := None |}.
Proof.
  refine (@keyword_only_dropped Sample.collaborators "function"
            "f(a, *, k, **kw)"
            {| FunctionDefParser.base :=
                 BaseFunctionParser.mk "f(a, *, k, **kw)" false 15 1;
               FunctionDefParser._lines :=
                 Sample.one_line "def f(a, *, k, **kw): pass";
               FunctionDefParser.ast_name := "f";
               FunctionDefParser.ast_args :=
                 Ast.Arguments [] [Ast.Arg "a"] None [Ast.Arg "k"] [None]
                   (Some (Ast.Arg "kw")) [] |} _ _ _ _).
  - reflexivity.
  - reflexivity.
  - discriminate.
  - reflexivity.
Defined.

(** ** Reading a method call *)

(** Texts put together from pieces. *)

Lemma append_cons (c : ascii) (s t : string) :
  String c s +:+ t = String c (s +:+ t).
Proof. reflexivity. Qed.

Lemma append_assoc (s t u : string) : (s +:+ t) +:+ u = s +:+ (t +:+ u).
Proof. induction s as [|c s IH]; [done|]. by rewrite !append_cons, IH. Qed.

Lemma append_nil_r (s : string) : s +:+ "" = s.
Proof. induction s as [|c s IH]; [done|]. by rewrite append_cons, IH. Qed.

Lemma list_ascii_app (s t : string) :
  list_ascii_of_string (s +:+ t)
  = list_ascii_of_string s ++ list_ascii_of_string t.
Proof.
  induction s as [|c s IH]; [done|]. rewrite append_cons. cbn. by rewrite IH.
Qed.

Lemma list_ascii_length (s : string) :
  length (list_ascii_of_string s) = String.length s.
Proof. induction s as [|c s IH]; [done|]. cbn. by rewrite IH. Qed.

Lemma str_take_app (s t : string) : Py.str_take (String.length s) (s +:+ t) = s.
Proof.
  induction s as [|c s IH]; [by destruct t|].
  rewrite append_cons. cbn. by rewrite IH.
Qed.

Lemma all_chars_app p (s t : string) :
  all_chars p (s +:+ t) = all_chars p s && all_chars p t.
Proof. unfold all_chars. by rewrite list_ascii_app, forallb_app. Qed.

Lemma rev_app_append (s acc : string) :
  String.rev_app s acc = String.rev s +:+ acc.
Proof.
  unfold String.rev. revert acc.
  induction s as [|c s IH]; intros acc; [done|].
  cbn. rewrite IH, (IH (String c "")), append_assoc. done.
Qed.

Lemma rev_cons (c : ascii) (s : string) :
  String.rev (String c s) = String.rev s +:+ String c "".
Proof. unfold String.rev at 1. cbn. by rewrite rev_app_append. Qed.

Lemma rev_append (s t : string) :
  String.rev (s +:+ t) = String.rev t +:+ String.rev s.
Proof.
  induction s as [|c s IH]; [by rewrite append_nil_r|].
  change (String c s +:+ t) with (String c (s +:+ t)).
  by rewrite !rev_cons, IH, append_assoc.
Qed.

Lemma rev_involutive (s : string) : String.rev (String.rev s) = s.
Proof.
  induction s as [|c s IH]; [done|].
  by rewrite rev_cons, rev_append, IH.
Qed.

Lemma all_chars_rev p (s : string) : all_chars p (String.rev s) = all_chars p s.
Proof.
  induction s as [|c s IH]; [done|].
  rewrite rev_cons, all_chars_app, IH. unfold all_chars. cbn.
  destruct (p c), (forallb p _); done.
Qed.

(** Stripping. *)

Lemma lstrip_by_all p (lead s : string) :
  all_chars p lead = true → Py.lstrip_by p (lead +:+ s) = Py.lstrip_by p s.
Proof.
  unfold all_chars. induction lead as [|c lead IH]; [done|].
  rewrite append_cons. cbn. intros [Hc Hl]%andb_prop. rewrite Hc. by apply IH.
Qed.

Lemma lstrip_by_solid (s t : string) :
  starts_solid s = true → Py.lstrip_by Py.is_space (s +:+ t) = s +:+ t.
Proof.
  destruct s as [|c s]; [done|]. rewrite append_cons. cbn -[Py.is_space].
  by intros ->%negb_true_iff.
Qed.

Lemma strip_padded (lead obj trail : string) :
  all_chars Py.is_space lead = true →
  all_chars Py.is_space trail = true →
  trimmed obj = true →
  Py.strip (lead +:+ obj +:+ trail) = obj.
Proof.
  intros Hlead Htrail [Hfirst Hlast]%andb_prop.
  unfold Py.strip, Py.rstrip_by.
  rewrite (lstrip_by_all _ _ _ Hlead), (lstrip_by_solid _ _ Hfirst).
  rewrite rev_append, lstrip_by_all by by rewrite all_chars_rev.
  rewrite <-(append_nil_r (String.rev obj)), (lstrip_by_solid _ _ Hlast).
  by rewrite append_nil_r, rev_involutive.
Qed.

(** The last occurrence of a character. *)

Lemma contains_app c (s t : string) :
  Py.contains c (s +:+ t) = Py.contains c s || Py.contains c t.
Proof.
  induction s as [|d s IH]; [done|].
  rewrite append_cons. cbn. by destruct (Ascii.eqb c d).
Qed.

Lemma all_chars_contains p c (s : string) :
  all_chars p s = true → p c = false → Py.contains c s = false.
Proof.
  unfold all_chars. induction s as [|d s IH]; [done|].
  cbn. intros [Hd Hs]%andb_prop Hc.
  destruct (Ascii.eqb_spec c d) as [->|_]; [congruence|]. by apply IH.
Qed.

Lemma rindex_from_app c (s t : string) : ∀ i last,
  Py.rindex_from c i last (s +:+ t)
  = Py.rindex_from c (i + String.length s) (Py.rindex_from c i last s) t.
Proof.
  induction s as [|d s IH]; intros i last.
  - cbn. by rewrite Nat.add_0_r.
  - rewrite append_cons. cbn. rewrite IH. f_equal. lia.
Qed.

Lemma rindex_from_keeps c (s : string) : ∀ i last,
  Py.contains c s = false → Py.rindex_from c i last s = last.
Proof.
  induction s as [|d s IH]; intros i last Hc; cbn in *; [done|].
  destruct (Ascii.eqb c d); [done|]. by apply IH.
Qed.

(** [rindex] answers the offset of the last [c]: the one with no [c]
    behind it. *)
Lemma rindex_last c (s t : string) :
  Py.contains c t = false →
  Py.rindex c (s +:+ String c t) = inr (String.length s).
Proof.
  intros Hc. unfold Py.rindex. rewrite rindex_from_app. cbn.
  rewrite Ascii.eqb_refl, rindex_from_keeps by done. done.
Qed.

(** The locator on a header. *)

Lemma take_while_run p (run rest : list ascii) (c : ascii) :
  forallb p run = true → p c = false →
  Worder.take_while p (run ++ c :: rest) = run.
Proof.
  intros Hrun Hc. induction run as [|d run IH]; cbn in *; [by rewrite Hc|].
  apply andb_prop in Hrun as [-> Hrun]. by rewrite IH.
Qed.

Lemma forallb_reverse {A} (p : A → bool) (l : list A) :
  forallb p (reverse l) = forallb p l.
Proof.
  induction l as [|x l IH]; [done|].
  rewrite reverse_cons, forallb_app, IH. cbn. by destruct (p x), (forallb p l).
Qed.

(** The word in front of an opening delimiter is the run of identifier
    characters between the last other character and the delimiter. *)
Lemma get_word_at_front (before name rest : string) (c : ascii) :
  name ≠ "" → all_chars Worder.is_id_char name = true →
  Worder.is_id_char c = false →
  let front := before +:+ String c name in
  Worder.get_word_at (front +:+ rest) (Z.of_nat (String.length front) - 1)
  = name.
Proof.
  intros Hne Hname Hc front.
  assert (0 < String.length front) as Hpos.
  { subst front. destruct name; [done|].
    rewrite <-list_ascii_length, list_ascii_app, length_app. cbn. lia. }
  unfold Worder.get_word_at, Worder.run_ending_at.
  destruct (Z.of_nat (String.length front) - 1)%Z as [|z|z] eqn:Hz; [| |lia].
  - replace (S (Z.to_nat 0)) with (String.length front) by lia.
    rewrite str_take_app. subst front.
    rewrite list_ascii_app. cbn [list_ascii_of_string].
    rewrite reverse_app, reverse_cons, <-app_assoc. cbn [app].
    rewrite take_while_run by (by rewrite ?forallb_reverse).
    by rewrite reverse_involutive, string_of_list_ascii_of_string.
  - replace (S (Z.to_nat (Z.pos z))) with (String.length front) by lia.
    rewrite str_take_app. subst front.
    rewrite list_ascii_app. cbn [list_ascii_of_string].
    rewrite reverse_app, reverse_cons, <-app_assoc. cbn [app].
    rewrite take_while_run by (by rewrite ?forallb_reverse).
    by rewrite reverse_involutive, string_of_list_ascii_of_string.
Qed.

Lemma scan_back_plain (inner rest : list ascii) :
  forallb plain_char inner = true →
  Worder.scan_back (inner ++ "("%char :: rest) 0 None = Some (length rest).
Proof.
  induction inner as [|c inner IH]; [done|].
  cbn [forallb app]. intros [Hc Hi]%andb_prop.
  unfold plain_char in Hc. apply negb_true_iff in Hc.
  apply orb_false_elim in Hc as [[Hq Hcl]%orb_false_elim Hop].
  cbn [Worder.scan_back]. rewrite Hq, Hcl, Hop. by apply IH.
Qed.

(** When the argument list holds no bracket and no quote, the locator finds
    the parenthesis that opens it. *)
Lemma find_parens_start_plain (front inner rest : string) :
  all_chars plain_char inner = true →
  Worder._find_parens_start (front +:+ "(" +:+ inner +:+ rest)
    (String.length (front +:+ "(" +:+ inner))
  = Some (String.length front).
Proof.
  intros Hinner. unfold Worder._find_parens_start.
  replace (front +:+ "(" +:+ inner +:+ rest)
    with ((front +:+ "(" +:+ inner) +:+ rest)
    by by rewrite !append_assoc.
  rewrite str_take_app, !list_ascii_app. cbn [list_ascii_of_string app].
  rewrite reverse_app, reverse_cons, <-app_assoc. cbn [app].
  rewrite scan_back_plain by (by rewrite forallb_reverse).
  by rewrite length_reverse, list_ascii_length.
Qed.

Lemma no_double_star (s : string) :
  no_star s → Py.startswith "**" s = false.
Proof.
  unfold no_star, Py.startswith. destruct s as [|c s]; [done|].
  cbn [String.prefix]. destruct (ascii_dec "*" c); [|done]. by destruct s.
Qed.

Lemma split_stars_plain (l : list string) :
  Forall no_star l → split_stars l = (l, None, None).
Proof.
  intros Hl. unfold split_stars.
  destruct (last l) as [a|] eqn:Hlast;
    [|cbv beta iota zeta; by rewrite Hlast].
  rewrite Forall_forall in Hl.
  assert (no_star a) as Ha by (apply Hl, last_Some_elem_of, Hlast).
  rewrite (no_double_star a Ha). cbv beta iota zeta. rewrite Hlast.
  unfold no_star in Ha. by rewrite Ha.
Qed.

Lemma keyword_values_cases lines (kws : list Ast.keyword) :
  FunctionCallParser.keyword_values lines kws
  = if forallb named kws then inr (keyword_pair lines <$> kws)
    else inl AssertionError.
Proof.
  induction kws as [|kw kws IH]; [done|].
  simpl. unfold named at 1. destruct (Py.truthy (Ast.kw_arg kw)); [|done].
  simpl. rewrite IH. by destruct (forallb named kws).
Qed.

Lemma is_id_char_dot : Worder.is_id_char "." = false.
Proof. reflexivity. Qed.

(** A header [receiver.name(inner)] read as a method call: the text in front
    of the last dot, stripped, goes in front of the written arguments, and
    the word between that dot and the parenthesis is the function name. *)
Lemma read_method_header `{Collaborators} (is_classmethod : bool)
    (D : DefinitionInfo.t string) (receiver name inner : string)
    (cargs : list Ast.node) (ckeywords : list Ast.keyword)
    (more : list Ast.stmt) :
  let front := receiver +:+ "." +:+ name in
  let header := front +:+ "(" +:+ inner +:+ ")" in
  let lines := source_lines header in
  let texts := BaseFunctionParser._get_source_range lines <$> cargs in
  name ≠ "" →
  all_chars Worder.is_id_char name = true →
  Worder._find_parens_start header (String.length (front +:+ "(" +:+ inner))
  = Some (String.length front) →
  ast_parse header = Some (Ast.Expr (Ast.Call cargs ckeywords) :: more) →
  forallb named ckeywords = true →
  Forall no_star (Py.strip receiver :: texts) →
  CallInfo.read true false is_classmethod D header
  = inr {| CallInfo.function_name := name;
           CallInfo.args := Py.strip receiver :: texts;
           CallInfo.keywords := keyword_pair lines <$> ckeywords;
           CallInfo.args_arg := None;
           CallInfo.keywords_arg := None;
           CallInfo.implicit_arg := true;
           CallInfo.constructor := false |}.
Proof.
  intros front header lines texts Hne Hname Hopen Hparse Hnamed Hstar.
  assert (Py.contains "." name = false) as Hdot
    by (eapply all_chars_contains; [done | reflexivity]).
  assert (header = (front +:+ "(" +:+ inner) +:+ ")") as Hlast
    by (unfold header; by rewrite !append_assoc).
  assert (header = receiver +:+ "." +:+ name +:+ "(" +:+ inner +:+ ")")
    as Hrecv by (unfold header, front; by rewrite !append_assoc).
  assert (Py.str_take (String.length front) header = front) as Hfront
    by apply str_take_app.
  assert (Worder.get_word_at header (Z.of_nat (String.length front) - 1)
          = name) as Hword
    by (by apply (get_word_at_front receiver name _ ".")).
  assert (Py.rindex ")" header = inr (String.length (front +:+ "(" +:+ inner)))
    as Hclose by (rewrite Hlast; by apply rindex_last).
  assert (Py.rindex "." front = inr (String.length receiver)) as Hrindex
    by (by apply rindex_last).
  assert (Py.contains "." front = true) as Hhas.
  { unfold front. rewrite contains_app. cbn. by rewrite orb_true_r. }
  assert (Py.str_take (String.length receiver) header = receiver) as Htake
    by (rewrite Hrecv; apply str_take_app).
  clearbody header front.
  unfold CallInfo.read, FunctionCallParser.init, BaseFunctionParser.init.
  change (true || is_classmethod) with true.
  rewrite Hclose. cbn [mbind result_bind mret result_ret]. rewrite Hopen.
  cbn [mbind result_bind mret result_ret]. rewrite Hparse.
  cbn [mbind result_bind mret result_ret].
  unfold FunctionCallParser.get_parameters.
  cbn [FunctionCallParser._lines FunctionCallParser.ast_args
       FunctionCallParser.ast_keywords FunctionCallParser.base].
  rewrite keyword_values_cases, Hnamed.
  cbn [mbind result_bind mret result_ret].
  unfold BaseFunctionParser.get_function_name,
    BaseFunctionParser.is_called_as_a_method, Py.rindex_before.
  cbn [BaseFunctionParser.implicit_arg BaseFunctionParser.first_parens
       BaseFunctionParser.call andb].
  rewrite Hfront, Hhas, Hrindex. cbn [mbind result_bind mret result_ret].
  rewrite Htake. fold lines. fold texts. rewrite (split_stars_plain _ Hstar).
  cbn [mbind result_bind mret result_ret]. by rewrite Hword.
Qed.

(** C9.  Every header [receiver.name(inner)] read as a method call, such as
    [obj.method(1, 2)]: whatever the receiver text [obj] is, dotted or not,
    and whatever whitespace stands around it, the call that comes back has
    [obj] in front of the texts of the written arguments, the keywords of
    the header, [implicit_arg] set, and the bare word [name] between the
    last dot and the opening parenthesis as its function name.  The header
    is one the locator finds the opening parenthesis of (as it does when the
    argument list holds no bracket and no quote, [find_parens_start_plain])
    and Python parses as a call, with named keywords and no starred
    argument. *)
Theorem method_call_receiver `{Collaborators} (is_classmethod : bool)
    (D : DefinitionInfo.t string) (lead obj trail name inner : string)
    (cargs : list Ast.node) (ckeywords : list Ast.keyword)
    (more : list Ast.stmt) :
  let front := (lead +:+ obj +:+ trail) +:+ "." +:+ name in
  let header := front +:+ "(" +:+ inner +:+ ")" in
  let lines := source_lines header in
  let texts := BaseFunctionParser._get_source_range lines <$> cargs in
  all_chars Py.is_space lead = true →
  all_chars Py.is_space trail = true →
  trimmed obj = true →
  name ≠ "" →
  all_chars Worder.is_id_char name = true →
  Worder._find_parens_start header (String.length (front +:+ "(" +:+ inner))
  = Some (String.length front) →
  ast_parse header = Some (Ast.Expr (Ast.Call cargs ckeywords) :: more) →
  forallb named ckeywords = true →
  Forall no_star (obj :: texts) →
  CallInfo.read true false is_classmethod D header
  = inr {| CallInfo.function_name := name;
           CallInfo.args := obj :: texts;
           CallInfo.keywords := keyword_pair lines <$> ckeywords;
           CallInfo.args_arg := None;
           CallInfo.keywords_arg := None;
           CallInfo.implicit_arg := true;
           CallInfo.constructor := false |}.
Proof.
  intros front header lines texts Hlead Htrail Hobj Hne Hname Hopen Hparse
    Hnamed Hstar.
  pose proof (read_method_header is_classmethod D (lead +:+ obj +:+ trail)
                name inner cargs ckeywords more Hne Hname Hopen Hparse Hnamed)
    as Hread.
  rewrite (strip_padded lead obj trail Hlead Htrail Hobj) in Hread.
  by apply Hread.
Qed.

(** [obj.method(1, 2)], and [a.b .method(1, 2)] with a dotted receiver and
    a blank in front of the last dot. *)
Lemma method_call_receiver_witness :
  @CallInfo.read Sample.collaborators true false false Sample.f_a_b
    "obj.method(1, 2)"
  = inr {| CallInfo.function_name := "method";
           CallInfo.args := ["obj"; "1"; "2"];
           CallInfo.keywords := [];
           CallInfo.args_arg := None;
           CallInfo.keywords_arg := None;
           CallInfo.implicit_arg := true;
           CallInfo.constructor := false |}
  ∧ @CallInfo.read (parsing_as Sample.tree_a_b_method_1_2) true false false
      Sample.f_a_b "a.b .method(1, 2)"
    = inr {| CallInfo.function_name := "method";
             CallInfo.args := ["a.b"; "1"; "2"];
             CallInfo.keywords := [];
             CallInfo.args_arg := None;
             CallInfo.keywords_arg := None;
             CallInfo.implicit_arg := true;
             CallInfo.constructor := false |}.
Proof.
  split.
  - refine (@method_call_receiver Sample.collaborators false Sample.f_a_b
              "" "obj" "" "method" "1, 2"
              [Sample.span 11 12; Sample.span 14 15] [] [] _ _ _ _ _ _ _ _ _);
      [reflexivity | reflexivity | reflexivity | discriminate | reflexivity
      | reflexivity | reflexivity | reflexivity | repeat constructor].
  - refine (@method_call_receiver (parsing_as Sample.tree_a_b_method_1_2)
              false Sample.f_a_b "" "a.b" " " "method" "1, 2"
              [Sample.span 12 13; Sample.span 15 16] [] [] _ _ _ _ _ _ _ _ _);
      [reflexivity | reflexivity | reflexivity | discriminate | reflexivity
      | by apply find_parens_start_plain | reflexivity | reflexivity
      | repeat constructor].
Defined.

Lemma rindex_from_absent c s : ∀ i,
  Py.contains c s = false → Py.rindex_from c i None s = None.
Proof.
  induction s as [|d s IH]; intros i Hc; simpl in *; [done|].
  destruct (Ascii.eqb c d); [done|]. by apply IH.
Qed.

Lemma rindex_absent c s :
  Py.contains c s = false → Py.rindex c s = inl ValueError.
Proof. intros Hc. unfold Py.rindex. by rewrite rindex_from_absent. Qed.

(** C10.  A fragment without a closing parenthesis is rejected by both
    readers: [rindex] raises before anything is built, so neither a
    [CallInfo] nor a [DefinitionInfo] comes back. *)
Theorem unterminated_fragment_fails `{Collaborators}
    (is_method_call is_constructor is_classmethod : bool)
    (D : DefinitionInfo.t string) (kind code : string) :
  Py.contains ")" code = false →
  CallInfo.read is_method_call is_constructor is_classmethod D code
  = inl ValueError
  ∧ DefinitionInfo._read kind code = inl ValueError.
Proof.
  intros Hc. unfold CallInfo.read, DefinitionInfo._read,
    FunctionCallParser.init, FunctionDefParser.init, BaseFunctionParser.init.
  by rewrite rindex_absent.
Qed.

(** [f(1, 2] *)
Lemma unterminated_fragment_fails_witness :
  @CallInfo.read Sample.collaborators false false false Sample.f_a_b "f(1, 2"
  = inl ValueError
  ∧ @DefinitionInfo._read Sample.collaborators "function" "f(1, 2"
    = inl ValueError.
Proof.
  apply (@unterminated_fragment_fails Sample.collaborators). reflexivity.
Defined.

(** A fragment that has a closing parenthesis and still does not parse is
    rejected as well. *)
Lemma rejected_fragment_fails `{Collaborators}
    (is_method_call is_constructor is_classmethod : bool)
    (D : DefinitionInfo.t string) (kind code : string) :
  (ast_parse code = None →
   is_ok (CallInfo.read is_method_call is_constructor is_classmethod D code)
   = false)
  ∧ (ast_parse ("def " +:+ Py.rstrip_colon code +:+ ": pass") = None →
     is_ok (DefinitionInfo._read kind code) = false).
Proof.
  split; intros Hparse.
  - unfold CallInfo.read, FunctionCallParser.init.
    destruct (BaseFunctionParser.init code _ false); [done|].
    cbn [mbind result_bind]. by rewrite Hparse.
  - unfold DefinitionInfo._read, FunctionDefParser.init.
    destruct (BaseFunctionParser.init code _ false); [done|].
    cbn [mbind result_bind]. by rewrite Hparse.
Qed.

(** ** The neighbouring paths that work *)

(** A positional spread is captured: [f(x, *r)]. *)
Example positional_spread_captured :
  @CallInfo.read Sample.collaborators false false false Sample.f_a_b "f(x, *r)"
  = inr {| CallInfo.function_name := "f";
           CallInfo.args := ["x"];
           CallInfo.keywords := [];
           CallInfo.args_arg := Some "r";
           CallInfo.keywords_arg := None;
           CallInfo.implicit_arg := false;
           CallInfo.constructor := false |}.
Proof. reflexivity. Qed.

(** Without a variadic-positional parameter a default goes to its own
    parameter: [f(a, b=1)]. *)
Example default_without_vararg :
  @DefinitionInfo._read Sample.collaborators "function" "f(a, b=1)"
  = inr {| DefinitionInfo.function_name := "f";
           DefinitionInfo.is_method := false;
           DefinitionInfo.args_with_defaults :=
             [(Name "a", None); (Name "b", Some "1")];
           DefinitionInfo.args_arg := None;
           DefinitionInfo.keywords_arg := None |}.
Proof. reflexivity. Qed.

(** Without keyword-only parameters the variadic-keyword name is set apart:
    [f(a, **kw)]. *)
Example variadic_keyword_captured :
  @DefinitionInfo._read Sample.collaborators "function" "f(a, **kw)"
  = inr {| DefinitionInfo.function_name := "f";
           DefinitionInfo.is_method := false;
           DefinitionInfo.args_with_defaults := [(Name "a", None)];
           DefinitionInfo.args_arg := None;
           DefinitionInfo.keywords_arg := Some "kw" |}.
Proof. reflexivity. Qed.

(** * Further properties *)

(** ** The argument mapper *)

(** X1.  The positional overflow of a mapping is what the call passes
    beyond the number of declared parameters, in order: it is empty exactly
    when the call has no more positional arguments than the definition has
    parameters.  The keyword overflow is the call's keywords that name no
    parameter, in order. *)
Theorem overflow_is_what_exceeds (D : DefinitionInfo.t string) (C : CallInfo.t) :
  let n := length (DefinitionInfo.args_with_defaults D) in
  args_arg (init D C) = drop n (CallInfo.args C)
  ∧ (args_arg (init D C) = [] ↔ length (CallInfo.args C) ≤ n)
  ∧ keyword_args (init D C)
    = filter (λ kw, kw.1 ∉ DefinitionInfo.names D) (CallInfo.keywords C).
Proof.
  intros n. destruct (init_spec D C) as (_ & Hov & Hkw & _).
  rewrite length_fmap in Hov. fold n in Hov. split_and!; [done| |done].
  rewrite Hov. split.
  - intros Hnil. destruct (decide (length (CallInfo.args C) ≤ n)); [done|].
    apply (f_equal length) in Hnil. rewrite length_drop in Hnil. simpl in Hnil. lia.
  - apply drop_ge.
Qed.

(** X2.  A mapping binds declared parameters only, and only to texts the
    call carries: a bound text is one of the call's positional arguments or
    the value of a keyword of that very name. *)
Theorem bindings_are_declared (D : DefinitionInfo.t string) (C : CallInfo.t)
    (name value : string) :
  param_dict (init D C) !! name = Some value →
  name ∈ DefinitionInfo.names D
  ∧ (value ∈ CallInfo.args C ∨ (name, value) ∈ CallInfo.keywords C).
Proof.
  intros Hv. split.
  - assert (name ∈ dom (param_dict (init D C))) as Hin
      by (apply elem_of_dom; by eexists).
    apply (init_dom D C) in Hin. by apply elem_of_list_to_set in Hin.
  - destruct (init_spec D C) as (Hpd & _). rewrite Hpd in Hv.
    apply insert_all_lookup_inv in Hv as [Hin|Hv].
    + right. by apply list_elem_of_filter in Hin as [_ ?].
    + left. apply insert_all_lookup_inv in Hv as [Hin|Hv].
      * by apply elem_of_zip_r in Hin.
      * by rewrite lookup_empty in Hv.
Qed.

Lemma bindings_are_declared_witness :
  "a" ∈ DefinitionInfo.names Sample.f_a_b
  ∧ ("1" ∈ ["1"] ∨ ("a", "1") ∈ ([] : list (string * string))).
Proof.
  apply (bindings_are_declared Sample.f_a_b (Sample.call "f" ["1"] []) "a" "1").
  reflexivity.
Defined.

(** X3.  A keyword that names a parameter decides its binding, also when
    the parameter was already passed positionally; of several keywords with
    one name the last decides. *)
Theorem last_keyword_wins (D : DefinitionInfo.t string) (C : CallInfo.t)
    (before after : list (string * string)) (name value : string) :
  CallInfo.keywords C = before ++ (name, value) :: after →
  name ∈ DefinitionInfo.names D →
  name ∉ after.*1 →
  param_dict (init D C) !! name = Some value.
Proof.
  intros Hkws Hdecl Hlast. destruct (init_spec D C) as (-> & _).
  rewrite Hkws, filter_app, filter_cons_True by done.
  rewrite insert_all_app. simpl.
  rewrite insert_all_lookup_notin; [apply lookup_insert_eq|].
  intros Hin. apply Hlast.
  apply list_elem_of_fmap in Hin as (kw & -> & Hin).
  apply list_elem_of_filter in Hin as [_ Hin].
  apply list_elem_of_fmap. by exists kw.
Qed.

Lemma last_keyword_wins_witness :
  param_dict (init Sample.f_a_b (Sample.call "f" ["1"] [("a", "2")])) !! "a"
  = Some "2".
Proof.
  apply (last_keyword_wins Sample.f_a_b (Sample.call "f" ["1"] [("a", "2")])
           [] [] "a" "2").
  - reflexivity.
  - compute_done.
  - compute_done.
Defined.

(** X4.  With distinct parameter names, a parameter that no keyword names
    is bound to the positional argument at its own index, and has no binding
    when the call has no argument there. *)
Theorem positional_binding (D : DefinitionInfo.t string) (C : CallInfo.t)
    (i : nat) (name : string) :
  NoDup (DefinitionInfo.names D) →
  DefinitionInfo.names D !! i = Some name →
  name ∉ (CallInfo.keywords C).*1 →
  param_dict (init D C) !! name = CallInfo.args C !! i.
Proof.
  intros Hnd Hi Hkw. destruct (init_spec D C) as (-> & _).
  rewrite insert_all_lookup_notin.
  - by apply positional_lookup.
  - intros Hin. apply Hkw.
    apply list_elem_of_fmap in Hin as (kw & -> & Hin).
    apply list_elem_of_filter in Hin as [_ Hin].
    apply list_elem_of_fmap. by exists kw.
Qed.

Lemma positional_binding_witness :
  param_dict (init Sample.f_a_b_c (Sample.call "f" ["1"; "2"] [("c", "3")])) !! "b"
  = Some "2".
Proof.
  apply (positional_binding Sample.f_a_b_c
           (Sample.call "f" ["1"; "2"] [("c", "3")]) 1 "b").
  - compute_done.
  - reflexivity.
  - compute_done.
Defined.

Lemma walk_all_bound pd (params : params_t) :
  Forall (bound pd) params →
  walk pd params = (omap (value_of pd) params, []).
Proof.
  induction 1 as [|[name dflt] params [v Hv] _ IH]; [done|].
  simpl in *. rewrite Hv, IH.
  change (value_of pd (name, dflt)) with (pd !! name). by rewrite Hv.
Qed.

(** X5.  When every parameter of the target definition has a binding, all
    of them are rendered positionally, in the target's order, followed by the
    positional overflow; the keywords are the keyword overflow alone.  This
    is how a reordered signature reorders the arguments. *)
Theorem all_bound_all_positional (m : ArgumentMapping.t)
    (D : DefinitionInfo.t string) :
  Forall (bound (param_dict m)) (DefinitionInfo.args_with_defaults D) →
  CallInfo.args (to_call_info m D)
  = omap (value_of (param_dict m)) (DefinitionInfo.args_with_defaults D)
    ++ args_arg m
  ∧ length (omap (value_of (param_dict m)) (DefinitionInfo.args_with_defaults D))
    = length (DefinitionInfo.args_with_defaults D)
  ∧ CallInfo.keywords (to_call_info m D) = keyword_args m.
Proof.
  intros Hb. destruct (to_call_info_fields m D) as (-> & -> & _).
  rewrite (walk_all_bound _ _ Hb). simpl.
  by destruct (zip_bound_values _ _ Hb) as [_ ->].
Qed.

Lemma all_bound_all_positional_witness :
  let m := init Sample.f_a_b (Sample.call "f" ["1"; "2"] []) in
  let D' := Sample.plain "f" ["b"; "a"] None in
  CallInfo.args (to_call_info m D') = ["2"; "1"]
  ∧ CallInfo.keywords (to_call_info m D') = [].
Proof.
  intros m D'.
  destruct (all_bound_all_positional m D') as (Ha & _ & Hk).
  - repeat constructor; eexists; reflexivity.
  - split; [exact Ha | exact Hk].
Defined.

(** X6.  The walk renders each parameter that has a binding exactly once,
    as itself and in the definition's order.  With [k] the number of
    parameters in front of the first one without a binding, the first [k]
    parameters are passed positionally, the text bound to parameter [i] at
    position [i]; every bound parameter from [k] on is passed as a keyword
    under its own name with the text bound to it; the overflow follows
    both. *)
Theorem walk_renders_each_binding_once (m : ArgumentMapping.t)
    (D : DefinitionInfo.t string) :
  let params := DefinitionInfo.args_with_defaults D in
  let pd := param_dict m in
  ∃ k,
    let positional := omap (value_of pd) (take k params) in
    let keywords := omap (keyword_of pd) (drop k params) in
    k ≤ length params
    ∧ Forall (bound pd) (take k params)
    ∧ (k = length params ∨ ∃ p, params !! k = Some p ∧ unbound pd p)
    ∧ length positional = k
    ∧ CallInfo.args (to_call_info m D) = positional ++ args_arg m
    ∧ CallInfo.keywords (to_call_info m D) = keywords ++ keyword_args m
    ∧ positional ++ keywords.*2 = omap (value_of pd) params
    ∧ Forall (λ kw, pd !! kw.1 = Some kw.2 ∧ kw.1 ∈ DefinitionInfo.names D)
        keywords.
Proof.
  intros params pd.
  destruct (to_call_info_fields m D) as (Ha & Hk & _).
  fold params pd in Ha, Hk.
  destruct (walk_shape pd params) as (k & Hle & Hb & Hgap & Hw).
  rewrite Hw in Ha, Hk. simpl in Ha, Hk.
  exists k. cbv zeta.
  split_and!; [done|done|done| |done|done| |].
  - destruct (zip_bound_values _ _ Hb) as [_ ->]. rewrite length_take. lia.
  - rewrite <-(take_drop k params) at 3. rewrite omap_app. f_equal.
    generalize (drop k params). intros l.
    induction l as [|[name dflt] l IH]; [done|].
    rewrite !omap_cons.
    change (keyword_of pd (name, dflt)) with ((λ v, (name, v)) <$> pd !! name).
    change (value_of pd (name, dflt)) with (pd !! name).
    destruct (pd !! name); csimpl; by rewrite ?IH.
  - eapply Forall_impl; [apply keyword_of_sound|]. intros kw [? Hin].
    split; [done|]. unfold DefinitionInfo.names. fold params.
    rewrite fmap_drop in Hin. by eapply subseteq_drop.
Qed.

Lemma keyword_pass_unbound pd (l : params_t) :
  Forall (unbound pd) l → keyword_pass pd l = [].
Proof.
  induction 1 as [|[name dflt] l Hn _ IH]; [done|].
  unfold unbound in Hn. simpl in *. by rewrite Hn.
Qed.

Lemma keyword_pass_app pd (l k : params_t) :
  keyword_pass pd (l ++ k) = keyword_pass pd l ++ keyword_pass pd k.
Proof.
  induction l as [|[name dflt] l IH]; [done|].
  simpl. rewrite IH. by destruct (pd !! name).
Qed.

Lemma walk_unbound_tail pd (l added : params_t) :
  Forall (unbound pd) added → walk pd (l ++ added) = walk pd l.
Proof.
  intros Hadded. induction l as [|[name dflt] l IH].
  - destruct Hadded as [|[name dflt] k Hn Hk]; [done|].
    unfold unbound in Hn. simpl in *. rewrite Hn.
    by rewrite (keyword_pass_unbound pd k Hk).
  - simpl. rewrite IH. destruct (pd !! name); [done|].
    by rewrite keyword_pass_app, (keyword_pass_unbound pd added Hadded), app_nil_r.
Qed.

(** X7.  Parameters without a binding added at the end of a definition do
    not change the rendered call. *)
Theorem unbound_tail_changes_nothing (m : ArgumentMapping.t)
    (D D' : DefinitionInfo.t string) (added : params_t) :
  DefinitionInfo.args_with_defaults D'
  = DefinitionInfo.args_with_defaults D ++ added →
  Forall (unbound (param_dict m)) added →
  to_call_info m D' = to_call_info m D.
Proof.
  intros HD' Hadded. unfold to_call_info.
  by rewrite HD', walk_unbound_tail.
Qed.

Lemma unbound_tail_changes_nothing_witness :
  let m := init Sample.f_a_b (Sample.call "f" ["1"; "2"] []) in
  to_call_info m Sample.f_a_b_c = to_call_info m Sample.f_a_b.
Proof.
  apply (unbound_tail_changes_nothing _ Sample.f_a_b Sample.f_a_b_c
           [("c", None)]).
  - reflexivity.
  - repeat constructor.
Defined.

(** X8.  A binding for a name the target definition does not declare is
    not rendered: the call is the one rendered without that binding.  This is
    how a removed parameter loses its argument. *)
Theorem undeclared_binding_not_rendered (m : ArgumentMapping.t)
    (D : DefinitionInfo.t string) (old : string) :
  old ∉ DefinitionInfo.names D →
  to_call_info (without old m) D = to_call_info m D.
Proof.
  intros Hold. unfold to_call_info, without. simpl.
  by rewrite walk_delete.
Qed.

Lemma undeclared_binding_not_rendered_witness :
  let m := init Sample.f_a_b (Sample.call "f" ["1"; "2"] []) in
  let D' := Sample.plain "f" ["a"] None in
  to_call_info (without "b" m) D' = to_call_info m D'.
Proof.
  apply (undeclared_binding_not_rendered _ (Sample.plain "f" ["a"] None) "b").
  compute_done.
Defined.

(** X9.  Rendering is idempotent: a call rendered against [D], mapped and
    rendered against [D] again, is unchanged. *)
Theorem render_is_idempotent (D : DefinitionInfo.t string) (C : CallInfo.t) :
  let C' := to_call_info (init D C) D in
  to_call_info (init D C') D = C'.
Proof.
  intros C'.
  destruct (rebuild_after_render D C) as (Hpd & Hov & Hkw).
  destruct (init_spec D C') as (_ & _ & _ & Hci).
  fold C' in Hpd, Hov, Hkw.
  unfold to_call_info at 1. rewrite Hpd, Hov, Hkw, Hci.
  unfold C' at 6. unfold to_call_info.
  destruct (walk _ _) as [args keywords]. simpl.
  unfold C', to_call_info.
  by destruct (walk _ _).
Qed.

Lemma seq_StronglySorted (j k : nat) : StronglySorted lt (seq j k).
Proof.
  revert j. induction k as [|k IH]; intros j; simpl; constructor; [done|].
  apply Forall_forall. intros x Hx. apply elem_of_seq in Hx. lia.
Qed.

(** X10.  With distinct parameter names, a call whose keywords name no
    parameter of [D] comes back from the round trip through the mapping as it
    went in. *)
Theorem positional_call_comes_back (D : DefinitionInfo.t string)
    (C : CallInfo.t) :
  NoDup (DefinitionInfo.names D) →
  Forall (λ kw, kw.1 ∉ DefinitionInfo.names D) (CallInfo.keywords C) →
  to_call_info (init D C) D = C.
Proof.
  intros Hnd Hkws.
  assert (omap (λ kw : string * string, position (DefinitionInfo.names D) kw.1)
            (CallInfo.keywords C) = []) as Hpos.
  { induction Hkws as [|kw kws Hkw _ IH]; [done|].
    by rewrite omap_cons, (position_None _ _ Hkw). }
  destruct (split_kept D C Hnd) as [Hargs Hperm].
  { unfold in_definition_order, bound_positions. rewrite Hpos, app_nil_r.
    apply seq_StronglySorted. }
  { intros name Hname Hin.
    apply list_elem_of_fmap in Hin as (kw & -> & Hin).
    rewrite Forall_forall in Hkws. apply (Hkws kw Hin).
    by eapply list_elem_of_lookup_2. }
  destruct (to_call_info_fields (init D C) D) as (_ & Hk & Hf & Ha & Hka & Hi & Hc).
  destruct (init_spec D C) as (_ & _ & Hextra & Hci).
  rewrite Hci in Hf, Ha, Hka, Hi, Hc.
  assert (keyword_args (init D C) = CallInfo.keywords C) as Hall.
  { rewrite Hextra. apply filter_all. exact Hkws. }
  assert (CallInfo.keywords (to_call_info (init D C) D) = CallInfo.keywords C)
    as Hkeys.
  { rewrite Hk, Hall in Hperm |- *.
    apply Permutation_length in Hperm. rewrite length_app in Hperm.
    destruct (walk _ _).2 as [|kw kws]; [done|]. simpl in Hperm. lia. }
  clear Hk Hextra Hci Hall Hperm Hpos Hkws.
  destruct (to_call_info (init D C) D), C. simpl in *. by subst.
Qed.

Lemma positional_call_comes_back_witness :
  to_call_info (init Sample.f_a_b_c (Sample.call "f" ["1"; "2"] [("x", "9")]))
    Sample.f_a_b_c
  = Sample.call "f" ["1"; "2"] [("x", "9")].
Proof.
  apply (positional_call_comes_back Sample.f_a_b_c
           (Sample.call "f" ["1"; "2"] [("x", "9")])).
  - compute_done.
  - repeat constructor. compute_done.
Defined.

(** ** Headers and calls *)

Lemma startswith_drop (p s : string) :
  Py.startswith p s = true → s = p +:+ Py.str_drop (String.length p) s.
Proof.
  unfold Py.startswith. revert s.
  induction p as [|a p IH]; intros s Hp; [done|].
  destruct s as [|b s]; [done|]. simpl in Hp.
  destruct (ascii_dec a b) as [->|]; [|done].
  simpl.
  change (String b s = String b (p +:+ Py.str_drop (String.length p) s)).
  f_equal. by apply IH.
Qed.

Lemma last_removelast {A} (l : list A) (x : A) :
  last l = Some x → l = removelast l ++ [x].
Proof.
  intros Hl. destruct (decide (l = [])) as [->|Hne]; [done|].
  rewrite (app_removelast_last x Hne) at 1. f_equal. f_equal.
  revert Hl. rewrite (app_removelast_last x Hne) at 1. rewrite last_snoc.
  by intros [= ->].
Qed.

(** X11.  [split_stars] only takes items off the end: the list it returns,
    followed by the starred items rebuilt from [args_arg] and
    [keywords_arg], is the list it was given.  When it reports no [args_arg],
    what it returns does not end with a starred item. *)
Theorem split_stars_rebuild (args rest : list string)
    (args_arg keywords_arg : option string) :
  split_stars args = (rest, args_arg, keywords_arg) →
  args = rest ++ stars_back args_arg keywords_arg
  ∧ (args_arg = None →
     ∀ x, last rest = Some x → Py.startswith "*" x = false).
Proof.
  unfold split_stars, stars_back. intros Hs.
  destruct (last args) as [a|] eqn:Hlast.
  - destruct (Py.startswith "**" a) eqn:H2.
    + pose proof (last_removelast _ _ Hlast) as Hargs.
      pose proof (startswith_drop _ _ H2) as Ha. simpl in Ha.
      destruct (last (removelast args)) as [b|] eqn:Hlast'.
      * destruct (Py.startswith "*" b) eqn:H1; simplify_eq.
        -- pose proof (last_removelast _ _ Hlast') as Hargs'.
           pose proof (startswith_drop _ _ H1) as Hb. simpl in Hb.
           split; [|done]. rewrite Hargs at 1. rewrite Hargs' at 1.
           rewrite <-app_assoc. simpl. by rewrite <-Ha, <-Hb.
        -- split; [rewrite Hargs at 1; simpl; by rewrite <-Ha|].
           intros _ x Hx. congruence.
      * simplify_eq. split; [rewrite Hargs at 1; simpl; by rewrite <-Ha|].
        intros _ x Hx. congruence.
    + rewrite Hlast in Hs.
      destruct (Py.startswith "*" a) eqn:H1; simplify_eq.
      * pose proof (last_removelast _ _ Hlast) as Hargs.
        pose proof (startswith_drop _ _ H1) as Ha. simpl in Ha.
        split; [|done]. rewrite Hargs at 1. simpl. by rewrite <-Ha.
      * split; [by rewrite app_nil_r|]. intros _ x Hx. congruence.
  - rewrite Hlast in Hs. simplify_eq. split; [by rewrite app_nil_r|].
    intros _ x Hx. congruence.
Qed.

Lemma split_stars_rebuild_witness :
  ["a"; "*r"; "**k"] = ["a"] ++ stars_back (Some "r") (Some "k")
  ∧ (Some "r" = None →
     ∀ x, last ["a"] = Some x → Py.startswith "*" x = false).
Proof.
  apply (split_stars_rebuild ["a"; "*r"; "**k"] ["a"] (Some "r") (Some "k")).
  reflexivity.
Defined.

Lemma get_parameters_positional (p : FunctionDefParser.t) :
  let a := FunctionDefParser.ast_args p in
  let names := positional_names a in
  let texts :=
    BaseFunctionParser._get_source_range (FunctionDefParser._lines p)
      <$> Ast.defaults a in
  let plain := length names - length (Ast.defaults a) in
  Ast.kwonlyargs a = [] → Ast.kw_defaults a = [] →
  Ast.vararg a = None ∨ Ast.defaults a = [] →
  length (Ast.defaults a) ≤ length names →
  FunctionDefParser.get_parameters p
  = inr (take plain names ++ starred "*" (Ast.vararg a)
           ++ starred "**" (Ast.kwarg a),
         prod_map Name id <$> zip (drop plain names) texts).
Proof.
  intros a names texts plain Hkwonly Hkwd Hcase Hle.
  unfold FunctionDefParser.get_parameters.
  subst texts plain names a. unfold positional_names, starred in *.
  destruct (FunctionDefParser.ast_args p)
    as [posonly args vararg kwonly kw_defaults kwarg defaults].
  simpl in Hkwonly, Hkwd, Hcase, Hle. subst kwonly kw_defaults.
  cbn [Ast.defaults Ast.posonlyargs Ast.args Ast.vararg Ast.kwarg
       Ast.kwonlyargs Ast.kw_defaults].
  set (names := (Ast.arg <$> posonly) ++ (Ast.arg <$> args)) in *.
  destruct defaults as [|d defaults].
  - cbn [length Nat.ltb Nat.leb mbind result_bind mret result_ret fmap list_fmap].
    rewrite Nat.sub_0_r, firstn_all, drop_all. simpl zip.
    destruct vararg, kwarg; simpl; by rewrite <-?app_assoc, ?app_nil_r.
  - destruct Hcase as [->|?]; [|done].
    change (0 <? length (d :: defaults)) with true. cbn iota.
    rewrite source_ranges_defaults.
    cbn [mbind result_bind mret result_ret length Nat.ltb Nat.leb].
    unfold Py.last_n, Py.del_last_n.
    destruct kwarg; simpl; by rewrite ?app_nil_r.
Qed.

Lemma startswith_star (s : string) : Py.startswith "*" ("*" +:+ s) = true.
Proof.
  unfold Py.startswith. change ("*" +:+ s) with (String "*" s).
  cbn [String.prefix]. destruct (ascii_dec "*" "*"); [by destruct s | done].
Qed.

Lemma startswith_two_stars (s : string) :
  Py.startswith "**" ("**" +:+ s) = true.
Proof.
  unfold Py.startswith. change ("**" +:+ s) with (String "*" (String "*" s)).
  cbn [String.prefix].
  destruct (ascii_dec "*" "*"); [by destruct s | done].
Qed.

Lemma one_star_is_not_two (s : string) :
  no_star s → Py.startswith "**" ("*" +:+ s) = false.
Proof.
  unfold no_star, Py.startswith. intros Hs.
  change ("*" +:+ s) with (String "*" s). cbn [String.prefix].
  by destruct (ascii_dec "*" "*").
Qed.

Lemma split_stars_one (l : list string) (v : string) :
  Forall no_star l → no_star v →
  split_stars (l ++ ["*" +:+ v]) = (l, Some v, None).
Proof.
  intros Hl Hv. unfold split_stars.
  rewrite last_snoc, (one_star_is_not_two v Hv). cbv beta iota zeta.
  rewrite last_snoc, startswith_star, removelast_last. done.
Qed.

Lemma split_stars_two (l : list string) (k : string) (rest : list string)
    (a : option string) :
  split_stars l = (rest, a, None) →
  split_stars (l ++ ["**" +:+ k]) = (rest, a, Some k).
Proof.
  unfold split_stars. intros Hl.
  rewrite last_snoc, startswith_two_stars, removelast_last.
  cbv beta iota zeta.
  destruct (last l) as [x|] eqn:Hlast.
  - destruct (Py.startswith "**" x); cbv beta iota zeta in Hl.
    + destruct (last (removelast l)) as [y|]; [|by simplify_eq].
      destruct (Py.startswith "*" y); by simplify_eq.
    + rewrite Hlast in Hl.
      destruct (Py.startswith "*" x); by simplify_eq.
  - cbv beta iota zeta in Hl. rewrite Hlast in Hl. by simplify_eq.
Qed.

Lemma split_stars_starred (l : list string) (v k : option Ast.arg_) :
  Forall no_star l →
  (∀ x, v = Some x → no_star (Ast.arg x)) →
  split_stars (l ++ starred "*" v ++ starred "**" k)
  = (l, Ast.arg <$> v, Ast.arg <$> k).
Proof.
  intros Hl Hv.
  assert (split_stars (l ++ starred "*" v) = (l, Ast.arg <$> v, None)) as Hone.
  { destruct v as [x|]; simpl.
    - apply split_stars_one; auto.
    - rewrite app_nil_r. by apply split_stars_plain. }
  destruct k as [x|]; simpl; [|by rewrite app_nil_r].
  rewrite (assoc_L (++)). by apply split_stars_two.
Qed.

(** X12.  A header without keyword-only parameters, with defaults or with
    a variadic-positional parameter but not both, is read as written: the
    parameters without default in order, then each defaulted parameter with
    the source text of its own default; the variadic names are set apart.
    Names are taken not to begin with a star, as identifiers. *)
Theorem read_header_without_keyword_only `{Collaborators} (kind code : string)
    (p : FunctionDefParser.t) :
  let a := FunctionDefParser.ast_args p in
  let names := positional_names a in
  let texts :=
    BaseFunctionParser._get_source_range (FunctionDefParser._lines p)
      <$> Ast.defaults a in
  let plain := length names - length (Ast.defaults a) in
  FunctionDefParser.init code (bool_decide (kind = "method"))
    (bool_decide (kind = "lambda")) = inr p →
  Ast.kwonlyargs a = [] → Ast.kw_defaults a = [] →
  Ast.vararg a = None ∨ Ast.defaults a = [] →
  length (Ast.defaults a) ≤ length names →
  Forall no_star names →
  (∀ v, Ast.vararg a = Some v → no_star (Ast.arg v)) →
  DefinitionInfo._read kind code
  = inr {| DefinitionInfo.function_name :=
             BaseFunctionParser.get_function_name (FunctionDefParser.base p);
           DefinitionInfo.is_method := bool_decide (kind = "method");
           DefinitionInfo.args_with_defaults :=
             ((λ name, (Name name, None)) <$> take plain names)
             ++ ((λ '(name, text), (Name name, Some text))
                   <$> zip (drop plain names) texts);
           DefinitionInfo.args_arg := Ast.arg <$> Ast.vararg a;
           DefinitionInfo.keywords_arg := Ast.arg <$> Ast.kwarg a |}.
Proof.
  intros a names texts plain Hinit Hkwonly Hkwd Hcase Hle Hnames Hv.
  unfold DefinitionInfo._read. rewrite Hinit. cbn [mbind result_bind].
  rewrite (get_parameters_positional p Hkwonly Hkwd Hcase Hle).
  cbn [mbind result_bind]. fold a names texts plain.
  rewrite split_stars_starred; [|by apply Forall_take|done].
  cbn [mret result_ret]. do 2 f_equal.
  rewrite <-list_fmap_compose. f_equal.
  apply list_fmap_ext. by intros i [name text].
Qed.

Lemma read_header_without_keyword_only_witness :
  @DefinitionInfo._read Sample.collaborators "function" "f(a, b=1)"
  = inr {| DefinitionInfo.function_name := "f";
           DefinitionInfo.is_method := false;
           DefinitionInfo.args_with_defaults :=
             [(Name "a", None); (Name "b", Some "1")];
           DefinitionInfo.args_arg := None;
           DefinitionInfo.keywords_arg := None |}.
Proof.
  refine (@read_header_without_keyword_only Sample.collaborators "function"
            "f(a, b=1)"
            {| FunctionDefParser.base :=
                 BaseFunctionParser.mk "f(a, b=1)" false 8 1;
               FunctionDefParser._lines := Sample.one_line "def f(a, b=1): pass";
               FunctionDefParser.ast_name := "f";
               FunctionDefParser.ast_args :=
                 Ast.Arguments [] [Ast.Arg "a"; Ast.Arg "b"] None [] [] None
                   [Sample.span 11 12] |} _ _ _ _ _ _ _).
  - reflexivity.
  - reflexivity.
  - reflexivity.
  - left. reflexivity.
  - simpl. lia.
  - repeat constructor.
  - intros v Hv. discriminate Hv.
Defined.

(** X13.  A header that has a positional default and whose first
    keyword-only parameter has no default is not read at all: the
    [kw_defaults] comprehension asks [None] for its source range and
    [_read] ends with [AttributeError]. *)
Theorem keyword_only_without_default_raises `{Collaborators}
    (kind code : string) (p : FunctionDefParser.t)
    (rest : list (option Ast.node)) :
  let a := FunctionDefParser.ast_args p in
  FunctionDefParser.init code (bool_decide (kind = "method"))
    (bool_decide (kind = "lambda")) = inr p →
  positional_names a ≠ [] →
  Ast.defaults a ≠ [] →
  Ast.kw_defaults a = None :: rest →
  DefinitionInfo._read kind code = inl AttributeError.
Proof.
  intros a Hinit Hnames Hdef Hkwd.
  unfold DefinitionInfo._read. rewrite Hinit. cbn [mbind result_bind].
  assert (FunctionDefParser.get_parameters p = inl AttributeError) as ->;
    [|done].
  unfold FunctionDefParser.get_parameters. subst a.
  unfold positional_names in Hnames.
  destruct (FunctionDefParser.ast_args p)
    as [posonly args vararg kwonly kw_defaults kwarg defaults].
  simpl in Hnames, Hdef, Hkwd. subst kw_defaults.
  cbn [Ast.defaults Ast.posonlyargs Ast.args Ast.vararg Ast.kwarg
       Ast.kwonlyargs Ast.kw_defaults].
  destruct defaults as [|d defaults]; [done|].
  change (0 <? length (d :: defaults)) with true. cbn iota.
  rewrite source_ranges_defaults. cbn [mbind result_bind].
  change (0 <? length (None :: rest)) with true. cbn iota.
  set (all := match vararg with
              | Some v => _ ++ ["*" +:+ Ast.arg v]
              | None => _
              end).
  assert (all ≠ []) as Hall.
  { subst all. destruct vararg; [|done].
    intros Heq. by apply app_eq_nil in Heq as [_ ?]. }
  set (kwargs := zip (Py.last_n (length (d :: defaults)) all) _).
  assert (∃ x, last kwargs = Some x) as [x Hx].
  { assert (kwargs ≠ []) as Hne; [|destruct kwargs using rev_ind;
      [done|rewrite last_snoc; by eexists]].
    subst kwargs. unfold Py.last_n.
    assert (drop (length all - length (d :: defaults)) all ≠ []) as Hdrop.
    { intros Heq. apply (f_equal length) in Heq.
      rewrite length_drop in Heq. simpl in Heq.
      destruct all; [done|]. simpl in Heq. lia. }
    destruct (drop _ all); [done|]. done. }
  cbn [mbind result_bind mret result_ret]. unfold Py.last_n at 1.
  assert (∃ y ys, drop (length kwargs - length (None :: rest)) kwargs = y :: ys)
    as (y & ys & ->).
  { destruct (drop _ kwargs) as [|y ys] eqn:Hd; [|by eexists _, _].
    apply (f_equal length) in Hd. rewrite length_drop in Hd. simpl in Hd.
    destruct kwargs; [done|]. simpl in Hd. lia. }
  done.
Qed.

Lemma keyword_only_without_default_raises_witness :
  let tree :=
    [Ast.FunctionDef "f"
       (Ast.Arguments [] [Ast.Arg "a"; Ast.Arg "b"] None [Ast.Arg "k"] [None]
          None [Sample.span 11 12])] in
  @DefinitionInfo._read (parsing_as tree) "function" "f(a, b=1, *, k)"
  = inl AttributeError.
Proof.
  intros tree.
  refine (@keyword_only_without_default_raises (parsing_as tree) "function"
            "f(a, b=1, *, k)"
            {| FunctionDefParser.base :=
                 BaseFunctionParser.mk "f(a, b=1, *, k)" false 14 1;
               FunctionDefParser._lines :=
                 Sample.one_line "def f(a, b=1, *, k): pass";
               FunctionDefParser.ast_name := "f";
               FunctionDefParser.ast_args :=
                 Ast.Arguments [] [Ast.Arg "a"; Ast.Arg "b"] None [Ast.Arg "k"]
                   [None] None [Sample.span 11 12] |} [] _ _ _ _).
  - reflexivity.
  - discriminate.
  - discriminate.
  - reflexivity.
Defined.

Lemma rindex_from_found c s : ∀ i last,
  (Py.contains c s = true ∨ is_Some last) →
  is_Some (Py.rindex_from c i last s).
Proof.
  induction s as [|d s IH]; intros i last Hc; simpl in *.
  - by destruct Hc.
  - apply IH. destruct (Ascii.eqb c d); [right; by eexists | done].
Qed.

Lemma rindex_found c s :
  Py.contains c s = true → ∃ i, Py.rindex c s = inr i.
Proof.
  intros Hc. unfold Py.rindex.
  destruct (rindex_from_found c s 0 None (or_introl Hc)) as [i ->].
  by exists i.
Qed.

(** X15.  [_FunctionCallParser.get_parameters] fails in one way only: with
    [AssertionError], and exactly when some keyword has no name.  Otherwise
    it returns the source texts of the arguments in order, each keyword with
    its value's text, and, for a call written as a method call, the stripped
    receiver text in front; the [rindex] that looks for the receiver's dot
    never raises. *)
Theorem call_parameters_fail_only_on_unnamed_keyword
    (p : FunctionCallParser.t) :
  let lines := FunctionCallParser._lines p in
  let b := FunctionCallParser.base p in
  let texts :=
    BaseFunctionParser._get_source_range lines
      <$> FunctionCallParser.ast_args p in
  let pairs := keyword_pair lines <$> FunctionCallParser.ast_keywords p in
  if forallb named (FunctionCallParser.ast_keywords p)
  then
    if BaseFunctionParser.is_called_as_a_method b
    then ∃ dot,
        Py.rindex_before "." (BaseFunctionParser.first_parens b)
          (BaseFunctionParser.call b) = inr dot
        ∧ FunctionCallParser.get_parameters p
          = inr (Py.strip (Py.str_take dot (BaseFunctionParser.call b)) :: texts,
                 pairs)
    else FunctionCallParser.get_parameters p = inr (texts, pairs)
  else FunctionCallParser.get_parameters p = inl AssertionError.
Proof.
  intros lines b texts pairs. unfold FunctionCallParser.get_parameters.
  fold lines b. rewrite keyword_values_cases.
  destruct (forallb named _); [|done]. cbn [mbind result_bind].
  destruct (BaseFunctionParser.is_called_as_a_method b) eqn:Hm; [|done].
  unfold BaseFunctionParser.is_called_as_a_method in Hm.
  apply andb_prop in Hm as [_ Hdot].
  destruct (rindex_found _ _ Hdot) as [dot Hr].
  exists dot. unfold Py.rindex_before. by rewrite Hr.
Qed.

(** X17.  The synthetic argument of a constructor call never shows in the
    call's text: a call read as a constructor call carries the definition's
    first parameter name in front of the arguments of the same call read as
    a plain call, and both print the same text; printing does not fail. *)
Theorem constructor_text_hides_synthetic `{Collaborators}
    (D : DefinitionInfo.t string) (code : string) (ci : CallInfo.t) :
  CallInfo.read false true false D code = inr ci →
  ∃ plain,
    CallInfo.read false false false D code = inr plain
    ∧ CallInfo.args ci = (DefinitionInfo.names D !!! 0) :: CallInfo.args plain
    ∧ CallInfo.to_string ci = CallInfo.to_string plain
    ∧ is_ok (CallInfo.to_string ci) = true.
Proof.
  unfold CallInfo.read. simpl.
  destruct (FunctionCallParser.init code false false) as [e|info]; [done|].
  cbn [mbind result_bind].
  destruct (FunctionCallParser.get_parameters info) as [e|[args keywords]];
    [done|]. cbn [mbind result_bind].
  destruct (split_stars args) as [[args' args_arg] keywords_arg].
  unfold DefinitionInfo.names.
  destruct (DefinitionInfo.args_with_defaults D) as [|[name dflt] params];
    [done|]. cbn [mbind result_bind mret result_ret].
  intros [= <-]. eexists. split; [done|]. by split_and!.
Qed.

Lemma constructor_text_hides_synthetic_witness :
  ∃ plain,
    @CallInfo.read Sample.collaborators false false false Sample.init_self_x
      "C(1)" = inr plain
    ∧ ["self"; "1"] = "self" :: CallInfo.args plain
    ∧ inr "C(1)" = CallInfo.to_string plain
    ∧ true = true.
Proof.
  apply (@constructor_text_hides_synthetic Sample.collaborators
           Sample.init_self_x "C(1)"
           {| CallInfo.function_name := "C";
              CallInfo.args := ["self"; "1"];
              CallInfo.keywords := [];
              CallInfo.args_arg := None;
              CallInfo.keywords_arg := None;
              CallInfo.implicit_arg := false;
              CallInfo.constructor := true |}).
  reflexivity.
Defined.

(** X19.  [get_instance] never raises: it answers with a receiver exactly
    for a call written as a method call, and with [None] otherwise. *)
Theorem get_instance_never_raises (p : BaseFunctionParser.t) :
  ∃ o, BaseFunctionParser.get_instance p = inr o
       ∧ (is_Some o ↔ BaseFunctionParser.is_called_as_a_method p = true).
Proof.
  unfold BaseFunctionParser.get_instance.
  destruct (BaseFunctionParser.is_called_as_a_method p) eqn:Hm.
  - unfold BaseFunctionParser.is_called_as_a_method in Hm.
    apply andb_prop in Hm as [_ Hdot].
    destruct (rindex_found _ _ Hdot) as [dot Hr].
    unfold Py.rindex_before. rewrite Hr. eexists. split; [done|].
    split; [done | by eexists].
  - eexists. split; [done|]. split; [by intros [? ?] | done].
Qed.

(** X14: the header [f(a, b=1, *rest)]. *)
Lemma vararg_shifts_defaults_witness :
  FunctionDefParser.get_parameters
    {| FunctionDefParser.base :=
         BaseFunctionParser.mk "f(a, b=1, *rest)" false 15 1;
       FunctionDefParser._lines :=
         Sample.one_line "def f(a, b=1, *rest): pass";
       FunctionDefParser.ast_name := "f";
       FunctionDefParser.ast_args :=
         Ast.Arguments [] [Ast.Arg "a"; Ast.Arg "b"] (Some (Ast.Arg "rest"))
           [] [] None [Sample.span 11 12] |}
  = inr (["a"; "b"], [(Name "*rest", "1")]).
Proof.
  refine (vararg_shifts_defaults
            {| FunctionDefParser.base :=
                 BaseFunctionParser.mk "f(a, b=1, *rest)" false 15 1;
               FunctionDefParser._lines :=
                 Sample.one_line "def f(a, b=1, *rest): pass";
               FunctionDefParser.ast_name := "f";
               FunctionDefParser.ast_args :=
                 Ast.Arguments [] [Ast.Arg "a"; Ast.Arg "b"]
                   (Some (Ast.Arg "rest")) [] [] None [Sample.span 11 12] |}
            (Ast.Arg "rest") _ _ _ _ _); try reflexivity.
  simpl. lia.
Defined.

(** X18: [f((1, 2)], which has a closing parenthesis and does not parse. *)
Lemma rejected_fragment_fails_witness :
  is_ok (@CallInfo.read Sample.collaborators false false false Sample.f_a_b
           "f((1, 2)") = false.
Proof.
  apply (proj1 (@rejected_fragment_fails Sample.collaborators false false false
                  Sample.f_a_b "function" "f((1, 2)")).
  reflexivity.
Defined.
